(** * A shallow embedding of SimpleSSD's page-mapping FTL

    Source: src/simplessd/ftl/page_mapping.cc (class PageMapping).

    The FTL state is the free-block list [freeBlocks] with its counter
    [nFreeBlocks], the in-use block map [blocks] (an unordered_map keyed by
    block index), and the mapping table [table] (LPN -> vector of
    (block, page) pairs, one per io-unit slot).  The PAL, the DRAM model and
    the CPU latency table are external collaborators: they are kept abstract
    as functions that take and return the simulated tick.  Every operation
    returns an [outcome]: a value, a fatal [panic], or [Undefined] where the
    C++ code has undefined behaviour (dereferencing an end iterator). *)

From Stdlib Require Import ZArith Lia Sorting.Sorted String.
From stdpp Require Import base gmap list strings sorting.

Open Scope Z_scope.

(** ** Outcomes of an operation *)

Inductive outcome (A : Type) : Type :=
| Ok (a : A)
| Panic (msg : string)
| Undefined.
Arguments Ok {A} a.
Arguments Panic {A} msg.
Arguments Undefined {A}.

#[global] Instance outcome_ret : MRet outcome := fun _ a => Ok a.
#[global] Instance outcome_bind : MBind outcome := fun A B f m =>
  match m with
  | Ok a => f a
  | Panic s => Panic s
  | Undefined => Undefined
  end.

(** uint64_t arithmetic wraps modulo 2^64. *)
Definition u64 (x : Z) : Z := x mod 2 ^ 64.

(** ** Configuration and external collaborators *)

Record Config := mkConfig {
  totalPhysicalBlocks : nat;
  pagesInBlock : nat;
  ioUnitInPage : nat;
  pageCountToMaxPerf : nat;
  bRandomTweak : bool;          (* FTL_USE_RANDOM_IO_TWEAK *)
  badBlockThreshold : nat;      (* FTL_BAD_BLOCK_THRESHOLD *)
  initialEraseCount : nat;      (* FTL_INITIAL_ERASE_COUNT *)
  refreshPeriod : Z             (* FTL_REFRESH_PERIOD, in seconds *)
}.

(** [bitsetSize = bRandomTweak ? param.ioUnitInPage : 1] *)
Definition bitsetSize (c : Config) : nat :=
  if bRandomTweak c then ioUnitInPage c else 1%nat.

(** A Bitset is a vector of bits; [count] is its population count. *)
Definition Bitset := list bool.
Definition bitCount (b : Bitset) : nat := length (filter (fun x : bool => x) b).

Record PALRequest := mkPALRequest {
  reqBlockIndex : nat;
  reqPageIndex : nat;
  reqIoFlag : Bitset
}.

(** The operations of [applyLatency(CPU::FTL__PAGE_MAPPING, op)]. *)
Inductive CpuOp :=
| READ | WRITE | TRIM | FORMAT
| READ_INTERNAL | WRITE_INTERNAL | TRIM_INTERNAL | ERASE_INTERNAL
| DO_GARBAGE_COLLECTION | SELECT_VICTIM_BLOCK.

(** The PAL, the DRAM model and the CPU model: each call takes the tick
    by reference and leaves the updated tick. *)
Record Ext := mkExt {
  palRead : PALRequest -> Z -> Z;
  palWrite : PALRequest -> Z -> Z;
  palErase : PALRequest -> Z -> Z;
  dramRead : nat -> Z -> Z;     (* bytes, tick *)
  dramWrite : nat -> Z -> Z;
  applyLatency : CpuOp -> Z
}.

(** ** Blocks

    Modelled from the spec: class Block (ftl/common/block.cc is not part
    of the sources).  A block carries its index, its erase count and its
    set of valid (page, io-unit) slots; [erase] clears the valid slots and
    increments the erase count, [invalidate] clears one slot. *)
Record Block := mkBlock {
  blockIndex : nat;
  eraseCount : nat;
  validBits : list (nat * nat)
}.

Definition getValidPageCount (b : Block) : nat := length (validBits b).

Definition blockErase (b : Block) : Block :=
  mkBlock (blockIndex b) (S (eraseCount b)) [].

Definition blockInvalidate (b : Block) (page idx : nat) : Block :=
  mkBlock (blockIndex b) (eraseCount b)
          (filter (fun pi => pi <> (page, idx)) (validBits b)).

(** The order of the free list: ascending erase count. *)
Definition ecLe (a b : Block) : Prop := (eraseCount a <= eraseCount b)%nat.

(** ** FTL state *)

Record FTL := mkFTL {
  freeBlocks : list Block;                  (* std::list<Block> *)
  nFreeBlocks : nat;
  blocks : gmap nat Block;                  (* unordered_map<uint32_t, Block> *)
  table : gmap nat (list (nat * nat))       (* LPN -> vector<pair<blk, page>> *)
}.

Definition setBlocks (s : FTL) (m : gmap nat Block) : FTL :=
  mkFTL (freeBlocks s) (nFreeBlocks s) m (table s).
Definition setTable (s : FTL) (t : gmap nat (list (nat * nat))) : FTL :=
  mkFTL (freeBlocks s) (nFreeBlocks s) (blocks s) t.

(** [std::list::emplace(pos, x)]: insert [x] before position [pos]. *)
Definition emplaceAt {A} (l : list A) (pos : nat) (x : A) : list A :=
  take pos l ++ x :: drop pos l.

Section FTLOps.

Variable cfg : Config.
Variable ext : Ext.

Definition cpu (op : CpuOp) : Z := applyLatency ext op.

(** ** PageMapping::eraseInternal *)

(** The reverse search of lines 1510-1525.  [it] is the position of the
    list iterator; each round performs [iter--] first.  The result is the
    position before which the erased block is emplaced. *)
Fixpoint reverseSearch (fb : list Block) (erasedCount : nat) (it : nat) : nat :=
  match it with
  | O => O
  | S p =>
      match fb !! p with
      | Some b =>
          if (eraseCount b <=? erasedCount)%nat then S p   (* iter++; break *)
          else match p with
               | O => O                                     (* iter == begin: break *)
               | S _ => reverseSearch fb erasedCount p
               end
      | None => O
      end
  end.

(** [iter = freeBlocks.end(); iter--] on an empty list is undefined. *)
Definition freeListInsertPos (fb : list Block) (erasedCount : nat) : option nat :=
  match fb with
  | [] => None
  | _ :: _ => Some (reverseSearch fb erasedCount (length fb))
  end.

Definition eraseInternal (s : FTL) (req : PALRequest) (tick : Z) : outcome (FTL * Z) :=
  match blocks s !! reqBlockIndex req with
  | None => Panic "No such block"
  | Some blk =>
      if negb (getValidPageCount blk =? 0)%nat
      then Panic "There are valid pages in victim block"
      else
        let blk' := blockErase blk in
        let tick1 := palErase ext req tick in
        let erasedCount := eraseCount blk' in
        s1 ← (if (erasedCount <? badBlockThreshold cfg)%nat
              then match freeListInsertPos (freeBlocks s) erasedCount with
                   | None => Undefined
                   | Some pos =>
                       Ok (mkFTL (emplaceAt (freeBlocks s) pos blk')
                                 (S (nFreeBlocks s)) (blocks s) (table s))
                   end
              else Ok s);
        Ok (setBlocks s1 (delete (reqBlockIndex req) (blocks s1)),
            u64 (tick1 + cpu ERASE_INTERNAL))
  end.

(** ** PageMapping::getFreeBlock

    Take the first free block whose index is congruent to [idx] modulo
    [pageCountToMaxPerf], falling back to the head of the list, move it to
    the in-use map and decrement [nFreeBlocks]. *)
Definition getFreeBlock (s : FTL) (idx : nat) : outcome (FTL * nat) :=
  if (pageCountToMaxPerf cfg <=? idx)%nat then Panic "Index out of range"
  else if (0 <? nFreeBlocks s)%nat then
    let pos :=
      match list_find (fun b => (blockIndex b mod pageCountToMaxPerf cfg)%nat = idx)
                      (freeBlocks s) with
      | Some (i, _) => Some i
      | None =>                              (* just use first one *)
          match freeBlocks s with [] => None | _ :: _ => Some O end
      end in
    match pos with
    | None => Undefined                      (* freeBlocks.begin() of an empty list *)
    | Some i =>
        match freeBlocks s !! i with
        | None => Undefined
        | Some b =>
            match blocks s !! blockIndex b with
            | Some _ => Panic "Corrupted"
            | None =>
                Ok (mkFTL (delete i (freeBlocks s)) (nFreeBlocks s - 1)
                          (<[blockIndex b := b]> (blocks s)) (table s),
                    blockIndex b)
            end
        end
    end
  else Panic "No free block left".

(** ** The constructor PageMapping::PageMapping *)

Definition initialFreeBlocks : list Block :=
  map (fun i => mkBlock i (initialEraseCount cfg) []) (seq 0 (totalPhysicalBlocks cfg)).

(** [for (i = 0; i < pageCountToMaxPerf; i++) lastFreeBlock.at(i) = getFreeBlock(i);] *)
Fixpoint allocateLastFreeBlocks (i k : nat) (s : FTL) : outcome FTL :=
  match k with
  | O => Ok s
  | S k' => '(s', _) ← getFreeBlock s i; allocateLastFreeBlocks (S i) k' s'
  end.

Definition construct : outcome FTL :=
  allocateLastFreeBlocks 0 (pageCountToMaxPerf cfg)
    (mkFTL initialFreeBlocks (totalPhysicalBlocks cfg) ∅ ∅).

(** ** The block pool as a transition system

    The free list, its counter and the key set of the in-use map change
    only in [getFreeBlock] and [eraseInternal].  Every public operation
    (read, write, trim, format, refresh event) is a sequence of these two
    calls, of in-place updates of in-use blocks (Block::write, read,
    invalidate keep the index and the erase count) and of mapping-table
    updates.  The last index counts the blocks retired as bad by the
    step. *)
Definition retiredBy (s : FTL) (b : nat) : nat :=
  match blocks s !! b with
  | Some blk => if (S (eraseCount blk) <? badBlockThreshold cfg)%nat then O else 1%nat
  | None => O
  end.

Inductive poolStep : FTL -> FTL -> nat -> Prop :=
| step_getFreeBlock s idx s' b :
    getFreeBlock s idx = Ok (s', b) -> poolStep s s' O
| step_eraseInternal s req tick s' tick' :
    eraseInternal s req tick = Ok (s', tick') ->
    poolStep s s' (retiredBy s (reqBlockIndex req))
| step_blockUpdate s k blk v :
    blocks s !! k = Some blk ->
    poolStep s (setBlocks s (<[k := mkBlock (blockIndex blk) (eraseCount blk) v]> (blocks s))) O
| step_tableUpdate s t :
    poolStep s (setTable s t) O.

(** [reachable s r]: [s] is reachable from the constructed state with [r]
    blocks retired on the way. *)
Inductive reachable : FTL -> nat -> Prop :=
| reach_init s : construct = Ok s -> reachable s O
| reach_step s r s' d : reachable s r -> poolStep s s' d -> reachable s' (r + d).

(** ** Requests, trim and format *)

Record Request := mkRequest {
  lpn : nat;
  ioFlag : Bitset
}.

(** The trim loop of trimInternal (lines 1468-1477) and of format (lines
    422-434): for every slot [idx < bitsetSize], look the block up
    ([panic] when it is not in use), invalidate the slot and collect the
    block index.  [mappingList.at(idx)] throws std::out_of_range past the
    end of the vector. *)
Fixpoint invalidateSlots (bl : gmap nat Block) (ml : list (nat * nat))
    (idx k : nat) (acc : list nat) : outcome (gmap nat Block * list nat) :=
  match k with
  | O => Ok (bl, acc)
  | S k' =>
      match ml !! idx with
      | None => Panic "std::out_of_range"
      | Some (b, page) =>
          match bl !! b with
          | None => Panic "Block is not in use"
          | Some blk =>
              invalidateSlots (<[b := blockInvalidate blk page idx]> bl) ml
                              (S idx) k' (acc ++ [b])
          end
      end
  end.

Definition trimInternal (s : FTL) (req : Request) (tick : Z) : outcome (FTL * Z) :=
  match table s !! lpn req with
  | None => Ok (s, tick)
  | Some ml =>
      let tick1 := if bRandomTweak cfg
                   then dramRead ext (8 * bitCount (ioFlag req)) tick
                   else dramRead ext 8 tick in
      '(bl, _) ← invalidateSlots (blocks s) ml 0 (bitsetSize cfg) [];
      Ok (mkFTL (freeBlocks s) (nFreeBlocks s) bl (delete (lpn req) (table s)),
          u64 (tick1 + cpu TRIM_INTERNAL))
  end.

Definition trim (s : FTL) (req : Request) (tick : Z) : outcome (FTL * Z) :=
  '(s', t) ← trimInternal s req tick;
  Ok (s', u64 (t + cpu TRIM)).

(** The two uint64_t fields of LPNRange. *)
Record LPNRange := mkLPNRange { slpn : Z; nlp : Z }.

(** [iter->first >= range.slpn && iter->first < range.slpn + range.nlp]:
    the operands are uint64_t, so the end of the range [slpn + nlp] wraps
    modulo 2^64. *)
Definition inLPNRange (rng : LPNRange) (l : nat) : bool :=
  (slpn rng <=? Z.of_nat l) && (Z.of_nat l <? u64 (slpn rng + nlp rng)).

(** The table walk of format (lines 417-441) over the entries in the
    unordered_map's iteration order. *)
Fixpoint formatEntries (rng : LPNRange) (entries : list (nat * list (nat * nat)))
    (bl : gmap nat Block) (tbl : gmap nat (list (nat * nat))) (acc : list nat)
    : outcome (gmap nat Block * gmap nat (list (nat * nat)) * list nat) :=
  match entries with
  | [] => Ok (bl, tbl, acc)
  | (l, ml) :: rest =>
      if inLPNRange rng l then
        '(bl', acc') ← invalidateSlots bl ml 0 (bitsetSize cfg) acc;
        formatEntries rng rest bl' (delete l tbl) acc'
      else formatEntries rng rest bl tbl acc
  end.

(** std::unique on a sorted vector: drop adjacent repeats. *)
Fixpoint uniqueAdj (l : list nat) : list nat :=
  match l with
  | x :: ((y :: _) as rest) => if (x =? y)%nat then uniqueAdj rest else x :: uniqueAdj rest
  | _ => l
  end.

(** format hands the sorted, de-duplicated block list to
    doGarbageCollection, passed here as [gc]. *)
Definition format (gc : FTL -> list nat -> Z -> outcome (FTL * Z))
    (s : FTL) (rng : LPNRange) (tick : Z) : outcome (FTL * Z) :=
  '(bl, tbl, lst) ← formatEntries rng (map_to_list (table s)) (blocks s) (table s) [];
  '(s', t) ← gc (mkFTL (freeBlocks s) (nFreeBlocks s) bl tbl)
                (uniqueAdj (merge_sort Nat.le lst)) tick;
  Ok (s', u64 (t + cpu FORMAT)).

(** ** PageMapping::read and PageMapping::write

    The public entry points dispatch on the request's bitmap; the internal
    operations are passed as arguments. *)
Definition read (readInternal : FTL -> Request -> Z -> outcome (FTL * Z))
    (s : FTL) (req : Request) (tick : Z) : outcome (FTL * Z) :=
  '(s', t) ← (if (0 <? bitCount (ioFlag req))%nat then readInternal s req tick
              else Ok (s, tick));                    (* warn: empty request *)
  Ok (s', u64 (t + cpu READ)).

Definition write (writeInternal : FTL -> Request -> Z -> outcome (FTL * Z))
    (s : FTL) (req : Request) (tick : Z) : outcome (FTL * Z) :=
  '(s', t) ← (if (0 <? bitCount (ioFlag req))%nat then writeInternal s req tick
              else Ok (s, tick));                    (* warn: empty request *)
  Ok (s', u64 (t + cpu WRITE)).

(** ** PageMapping::doGarbageCollection *)

(** Modelled from the spec: Block::getPageInfo, the valid mask of a page
    and whether any of its io-units is valid. *)
Definition getPageInfo (b : Block) (page : nat) : bool * Bitset :=
  let mask := map (fun idx => bool_decide ((page, idx) ∈ validBits b))
                  (seq 0 (ioUnitInPage cfg)) in
  (existsb (fun x : bool => x) mask, mask).

(** The copy loop of one valid page (lines 723-761).  For every set slot
    the victim slot is invalidated and the mapping entry is read from DRAM
    ([pDRAM->read(..., tick)] advances the tick).  The destination of the
    copy comes from getLastFreeBlock; its write request is built there and
    does not touch the tick. *)
Fixpoint gcCopySlots (v page : nat) (bit : Bitset) (idx k : nat)
    (bl : gmap nat Block) (tick : Z) : gmap nat Block * Z :=
  match k with
  | O => (bl, tick)
  | S k' =>
      if nth idx bit false then
        let bl' := match bl !! v with
                   | Some blk => <[v := blockInvalidate blk page idx]> bl
                   | None => bl
                   end in
        gcCopySlots v page bit (S idx) k' bl' (dramRead ext (8 * ioUnitInPage cfg) tick)
      else gcCopySlots v page bit (S idx) k' bl tick
  end.

(** The page loop of one victim (lines 703-766): a read request per
    valid page. *)
Fixpoint gcPages (v pageIndex k : nat) (bl : gmap nat Block) (tick : Z)
    (reads : list PALRequest) : gmap nat Block * Z * list PALRequest :=
  match k with
  | O => (bl, tick, reads)
  | S k' =>
      match bl !! v with
      | None => (bl, tick, reads)
      | Some blk =>
          let '(valid, mask) := getPageInfo blk pageIndex in
          if valid then
            let bit := if bRandomTweak cfg then mask
                       else replicate (ioUnitInPage cfg) true in
            let '(bl', tick') := gcCopySlots v pageIndex bit 0 (bitsetSize cfg) bl tick in
            gcPages v (S pageIndex) k' bl' tick' (reads ++ [mkPALRequest v pageIndex bit])
          else gcPages v (S pageIndex) k' bl tick reads
      end
  end.

(** The collecting loop over the victims (lines 695-774). *)
Fixpoint gcCollect (victims : list nat) (bl : gmap nat Block) (tick : Z)
    (reads erases : list PALRequest)
    : outcome (gmap nat Block * Z * list PALRequest * list PALRequest) :=
  match victims with
  | [] => Ok (bl, tick, reads, erases)
  | v :: vs =>
      match bl !! v with
      | None => Panic "Invalid block"
      | Some _ =>
          let '(bl', tick', reads') := gcPages v 0 (pagesInBlock cfg) bl tick reads in
          gcCollect vs bl' tick' reads'
                    (erases ++ [mkPALRequest v 0 (replicate (ioUnitInPage cfg) true)])
      end
  end.

(** The I/O phase (lines 779-806), with a trace of every request's begin
    and finish tick. *)
Inductive IoKind := IoRead | IoWrite | IoErase.

Record IoEvent := mkIoEvent {
  evKind : IoKind;
  evBegin : Z;
  evFinish : Z
}.

Fixpoint issueReads (rs : list PALRequest) (tick rf : Z) (tr : list IoEvent)
    : Z * list IoEvent :=
  match rs with
  | [] => (rf, tr)
  | r :: rs' =>
      let f := palRead ext r tick in
      issueReads rs' tick (Z.max rf f) (tr ++ [mkIoEvent IoRead tick f])
  end.

Fixpoint issueWrites (ws : list PALRequest) (rf wf : Z) (tr : list IoEvent)
    : Z * list IoEvent :=
  match ws with
  | [] => (wf, tr)
  | w :: ws' =>
      let f := palWrite ext w rf in
      issueWrites ws' rf (Z.max wf f) (tr ++ [mkIoEvent IoWrite rf f])
  end.

Fixpoint issueErases (s : FTL) (es : list PALRequest) (rf ef : Z) (tr : list IoEvent)
    : outcome (FTL * Z * list IoEvent) :=
  match es with
  | [] => Ok (s, ef, tr)
  | e :: es' =>
      '(s', f) ← eraseInternal s e rf;
      issueErases s' es' rf (Z.max ef f) (tr ++ [mkIoEvent IoErase rf f])
  end.

(** [writes] are the copy requests built by the collecting loop from the
    allocations of getLastFreeBlock. *)
Definition doGarbageCollection (s : FTL) (victims : list nat)
    (writes : list PALRequest) (tick : Z) : outcome (FTL * Z * list IoEvent) :=
  match victims with
  | [] => Ok (s, tick, [])
  | _ :: _ =>
      '(bl, tick1, reads, erases) ← gcCollect victims (blocks s) tick [] [];
      let '(readFinishedAt, tr1) := issueReads reads tick1 tick [] in
      let '(writeFinishedAt, tr2) := issueWrites writes readFinishedAt tick tr1 in
      '(s', eraseFinishedAt, tr3) ←
        issueErases (setBlocks s bl) erases readFinishedAt tick tr2;
      Ok (s', u64 (Z.max writeFinishedAt eraseFinishedAt + cpu DO_GARBAGE_COLLECTION), tr3)
  end.

(** ** Refresh registration (setRefreshPeriod and lines 1366-1387)

    Modelled from the spec: bloom_filter (its sources are not part of the
    repository).  A level records the keys inserted into it and its
    [actual_insert] counter. *)
Record BloomLevel := mkBloomLevel {
  inserted : list Z;
  actualInsert : nat
}.

Record RefreshState := mkRefreshState {
  refresh_table : gmap Z nat;
  bloomFilters : list BloomLevel
}.

(** [((uint64_t)block_id << 32) + layer_id] *)
Definition refreshKey (block layer : nat) : Z :=
  u64 (Z.shiftl (Z.of_nat block) 32 + Z.of_nat layer).

Definition countInsert (bf : list BloomLevel) (rtc : nat) : list BloomLevel :=
  alter (fun b => mkBloomLevel (inserted b) (S (actualInsert b))) rtc bf.

Definition bloomInsert (bf : list BloomLevel) (rtc : nat) (item : Z) : list BloomLevel :=
  alter (fun b => mkBloomLevel (item :: inserted b) (actualInsert b)) rtc bf.

Definition setRefreshPeriod (st : RefreshState) (block_id layer_id rtc : nat) : RefreshState :=
  let item := refreshKey block_id layer_id in
  let st1 :=
    match refresh_table st !! item with
    | None => mkRefreshState (<[item := rtc]> (refresh_table st))
                             (countInsert (bloomFilters st) rtc)
    | Some r =>
        if (rtc <? r)%nat
        then mkRefreshState (<[item := rtc]> (refresh_table st))
                            (countInsert (bloomFilters st) rtc)
        else st
    end in
  mkRefreshState (refresh_table st1) (bloomInsert (bloomFilters st1) rtc item).

(** The period handed to the error model:
    [refresh_period * 1000000000ULL * j] in uint64_t. *)
Definition probePeriod (j : Z) : Z :=
  u64 (u64 (refreshPeriod cfg * 1000000000) * j).

(** [for (i = size, j = 1 << (size-1); i > 0; i--, j = j >> 1)];
    [rberExceeds t ec layer] stands for
    [errorModel.getRBER(t, ec, layer) > 0.01]. *)
Fixpoint registerLoop (rberExceeds : Z -> nat -> nat -> bool) (n : nat)
    (block_id eraseCnt layer : nat) (i : nat) (j : Z) (st : RefreshState) : RefreshState :=
  match i with
  | O => st
  | S i' =>
      let st' :=
        if (i =? n)%nat then setRefreshPeriod st block_id layer i'
        else if rberExceeds (probePeriod j) eraseCnt layer
             then setRefreshPeriod st block_id layer i'
             else st in
      registerLoop rberExceeds n block_id eraseCnt layer i' (Z.shiftr j 1) st'
  end.

(** Registration of one written io-unit at page [page] of block
    [block_id]: [layerNumber = mapping.second % 64]. *)
Definition registerRefresh (rberExceeds : Z -> nat -> nat -> bool) (st : RefreshState)
    (block_id eraseCnt page : nat) : RefreshState :=
  let n := length (bloomFilters st) in
  registerLoop rberExceeds n block_id eraseCnt (page mod 64)%nat n
               (Z.shiftl 1 (Z.of_nat n - 1) mod 2 ^ 32) st.

(** ** PageMapping::refresh_event: the choice of the level to sweep *)

(** [while (target_bf < bloomFilters.size()-1) { if ((RC_copy&1) == 0)
    { target_bf++; RC_copy >>= 1; } else break; }]; [k] is the number of
    rounds left before the bound. *)
Fixpoint selectLevel (k target : nat) (rc : Z) : nat :=
  match k with
  | O => target
  | S k' =>
      if Z.land rc 1 =? 0 then selectLevel k' (S target) (Z.shiftr rc 1)
      else target
  end.

Definition refreshTarget (nbf : nat) (rc : Z) : nat := selectLevel (nbf - 1) 0 rc.

(** One firing: choose the level from the pre-increment count, sweep it,
    then [stat.refreshCallCount++].  The sweep of the chosen level is
    passed as [sweep]; it does not touch the call count. *)
Definition refresh_event {St : Type} (nbf : nat) (sweep : nat -> St -> St)
    (st : St) (refreshCallCount : Z) : St * Z * nat :=
  let target_bf := refreshTarget nbf refreshCallCount in
  (sweep target_bf st, u64 (refreshCallCount + 1), target_bf).

(** The levels swept by [k] successive firings, from call count [rc]. *)
Fixpoint sweptLevels (nbf k : nat) (rc : Z) : list nat :=
  match k with
  | O => []
  | S k' =>
      let '(_, rc', lvl) := refresh_event nbf (fun _ (u : unit) => u) tt rc in
      lvl :: sweptLevels nbf k' rc'
  end.

(** [stat.refreshCallCount = 1] in PageMapping::initialize. *)
Definition initialRefreshCallCount : Z := 1.

End FTLOps.

Section FTLMore.

Variable cfg : Config.
Variable ext : Ext.

(** ** PageMapping::getStatus

    [status.totalLogicalPages] is set by the constructor to
    [totalLogicalBlocks * pagesInBlock]; it is passed as an argument.  The
    result is the pair (freePhysicalBlocks, mappedLogicalPages). *)
Definition getStatus (totalLogicalPages : nat) (s : FTL) (lpnBegin lpnEnd : nat)
    : nat * nat :=
  (nFreeBlocks s,
   if (lpnBegin =? 0)%nat && (totalLogicalPages <=? lpnEnd)%nat
   then size (table s)
   else length (filter (fun l => is_Some (table s !! l))
                       (seq lpnBegin (lpnEnd - lpnBegin)))).

(** ** PageMapping::getLastFreeBlock: the choice of the slot (lines 531-542)

    [(lastFreeBlockIndex, lastFreeBlockIOMap)] before and after the call.
    [(lastFreeBlockIOMap & iomap).any()] and [lastFreeBlockIOMap |= iomap]
    work bit by bit. *)
Definition advanceLastFreeBlock (lastFreeBlockIndex : nat)
    (lastFreeBlockIOMap iomap : Bitset) : nat * Bitset :=
  if negb (bRandomTweak cfg) || existsb (fun x : bool => x) (zip_with andb lastFreeBlockIOMap iomap)
  then
    let i := S lastFreeBlockIndex in
    ((if (i =? pageCountToMaxPerf cfg)%nat then O else i), iomap)
  else (lastFreeBlockIndex, zip_with orb lastFreeBlockIOMap iomap).

(** ** PageMapping::calculateWearLeveling: the two sums (lines 1539-1562)

    [totalEraseCnt] and [sumOfSquaredEraseCnt] in uint64_t: first over the
    in-use map, then over the free list from its tail, stopping at the
    first block with erase count 0.  The final float division is left out. *)
Definition wearStep (acc : Z * Z) (eraseCnt : nat) : Z * Z :=
  (u64 (acc.1 + Z.of_nat eraseCnt),
   u64 (acc.2 + u64 (Z.of_nat eraseCnt * Z.of_nat eraseCnt))).

Fixpoint wearFreeScan (rfb : list Block) (acc : Z * Z) : Z * Z :=
  match rfb with
  | [] => acc
  | b :: rest =>
      if (eraseCount b =? 0)%nat then acc           (* break *)
      else wearFreeScan rest (wearStep acc (eraseCount b))
  end.

Definition wearLevelingSums (s : FTL) : Z * Z :=
  let acc := fold_left (fun acc kb => wearStep acc (eraseCount kb.2))
                       (map_to_list (blocks s)) (0, 0) in
  wearFreeScan (rev (freeBlocks s)) acc.

(** ** PageMapping::readInternal

    The slot loop (lines 1201-1250).  Every slot selected by the bitmap (all
    slots without the random tweak) whose mapping lies inside the device is
    read from the PAL at the tick left by the DRAM access; slots holding
    the sentinel are skipped.  Modelled from the spec: Block::read records
    the access in the block and takes the tick by value. *)
Fixpoint readSlots (bl : gmap nat Block) (ml : list (nat * nat)) (flag : Bitset)
    (idx k : nat) (tick finishedAt : Z) : outcome Z :=
  match k with
  | O => Ok finishedAt
  | S k' =>
      if nth idx flag false || negb (bRandomTweak cfg) then
        match ml !! idx with
        | None => Panic "std::out_of_range"
        | Some (b, page) =>
            if (b <? totalPhysicalBlocks cfg)%nat && (page <? pagesInBlock cfg)%nat then
              match bl !! b with
              | None => Panic "Block is not in use"
              | Some _ =>
                  let pflag := if bRandomTweak cfg
                               then map (fun j => (j =? idx)%nat) (seq 0 (length flag))
                               else replicate (length flag) true in
                  let f := palRead ext (mkPALRequest b page pflag) tick in
                  readSlots bl ml flag (S idx) k' tick (Z.max finishedAt f)
              end
            else readSlots bl ml flag (S idx) k' tick finishedAt
        end
      else readSlots bl ml flag (S idx) k' tick finishedAt
  end.

(** [finishedAt] starts at the tick before the DRAM access. *)
Definition readInternal (s : FTL) (req : Request) (tick : Z) : outcome (FTL * Z) :=
  match table s !! lpn req with
  | None => Ok (s, tick)
  | Some ml =>
      let tick1 := if bRandomTweak cfg
                   then dramRead ext (8 * bitCount (ioFlag req)) tick
                   else dramRead ext 8 tick in
      f ← readSlots (blocks s) ml (ioFlag req) 0 (bitsetSize cfg) tick1 tick;
      Ok (s, u64 (f + cpu ext READ_INTERNAL))
  end.

(** The state of the constructor after [getFreeBlock(0..i-1)]: blocks
    [0..i-1] in use, blocks [i..totalPhysicalBlocks-1] free, in order. *)
Definition constructShape (i : nat) : FTL :=
  mkFTL (map (fun j => mkBlock j (initialEraseCount cfg) []) (seq i (totalPhysicalBlocks cfg - i)))
        (totalPhysicalBlocks cfg - i)
        (list_to_map (map (fun j => (j, mkBlock j (initialEraseCount cfg) [])) (seq 0 i))) ∅.
End FTLMore.

(** ** Concrete configurations used by the witnesses *)

(** 4 blocks of 2 pages, one io-unit per page, one parallel unit, no
    random tweak, bad-block threshold 3, refresh period 1 s. *)
Definition cfgDemo : Config := mkConfig 4 2 1 1 false 3 0 1.

(** A PAL taking 10 / 5 / 100 ticks per read / write / erase, a DRAM taking
    1 tick per access, and 7 ticks of CPU latency per operation. *)
Definition extDemo : Ext :=
  mkExt (fun _ t => t + 10) (fun _ t => t + 5) (fun _ t => t + 100)
        (fun _ t => t + 1) (fun _ t => t + 1) (fun _ => 7).

(** The state built by the constructor under [cfgDemo]: block 0 is the
    write target of the single parallel unit. *)
Definition demoState0 : FTL :=
  mkFTL [mkBlock 1 0 []; mkBlock 2 0 []; mkBlock 3 0 []] 3
        {[0%nat := mkBlock 0 0 []]} ∅.

(** One block, one parallel unit, bad-block threshold 1: the first erase
    retires the block. *)
Definition cfgBadBlock : Config := mkConfig 1 2 1 1 false 1 0 1.

(** Random tweak on, two io-units per page, otherwise as [cfgDemo]. *)
Definition cfgTweak : Config := mkConfig 4 2 2 1 true 3 0 1.

(** Under [cfgDemo]: LPN 5 mapped to page 0 of block 0. *)
Definition demoStateMapped : FTL :=
  mkFTL [mkBlock 1 0 []; mkBlock 2 0 []; mkBlock 3 0 []] 3
        {[0%nat := mkBlock 0 0 [(0, 0)%nat]]} {[5%nat := [(0, 0)%nat]]}.

(** Under [cfgTweak]: LPN 5 written with bitmap 10, so its second slot
    still holds the sentinel (4, 2). *)
Definition demoStateSentinel : FTL :=
  mkFTL [mkBlock 1 0 []; mkBlock 2 0 []; mkBlock 3 0 []] 3
        {[0%nat := mkBlock 0 0 [(0, 0)%nat]]} {[5%nat := [(0, 0); (4, 2)]%nat]}.

(** The latest finish time of a list of I/O events, starting from [base]
    (the [MAX] accumulations of lines 784-803). *)
Definition latestFinish (base : Z) (evs : list IoEvent) : Z :=
  fold_left (fun m e => Z.max m (evFinish e)) evs base.

(** The items inserted so far into Bloom level [L], if the level exists. *)
Definition insertedAt (bf : list BloomLevel) (L : nat) : option (list Z) :=
  inserted <$> bf !! L.

(** The error model of the witness and the counterexample: the RBER
    exceeds the threshold from a retention time of two seconds on. *)
Definition rberDemo (t : Z) (_ _ : nat) : bool := 2000000000 <=? t.

(** Three empty Bloom levels. *)
Definition refreshDemo0 : RefreshState :=
  mkRefreshState ∅ (replicate 3 (mkBloomLevel [] 0)).

(** Under [cfgDemo]: the state after erasing block 0 of [demoState0]; the
    erased block sits at the tail of the free list with erase count 1. *)
Definition demoStateErased : FTL :=
  mkFTL [mkBlock 1 0 []; mkBlock 2 0 []; mkBlock 3 0 []; mkBlock 0 1 []] 4 ∅ ∅.

(** ** Proofs *)

Ltac unfold_bind := unfold mbind, outcome_bind in *.

Section Proofs.

Variable cfg : Config.
Variable ext : Ext.

Lemma freeListInsertPos_None (fb : list Block) (x : nat) :
  freeListInsertPos fb x = None <-> fb = [].
Proof. destruct fb; simpl; split; congruence. Qed.

(** C10: the reinsertion of eraseInternal has no defined result exactly
    when the erased block goes back to an empty free list. *)
Theorem eraseInternal_undefined_iff (s : FTL) (req : PALRequest) (tick : Z) :
  eraseInternal cfg ext s req tick = Undefined <->
  exists blk, blocks s !! reqBlockIndex req = Some blk /\
    getValidPageCount blk = 0%nat /\
    (S (eraseCount blk) < badBlockThreshold cfg)%nat /\
    freeBlocks s = [].
Proof.
  unfold eraseInternal. unfold_bind.
  destruct (blocks s !! reqBlockIndex req) as [blk|] eqn:Hb.
  - destruct (getValidPageCount blk =? 0)%nat eqn:Hv; simpl.
    + apply Nat.eqb_eq in Hv.
      destruct (S (eraseCount blk) <? badBlockThreshold cfg)%nat eqn:Ht.
      * apply Nat.ltb_lt in Ht.
        destruct (freeBlocks s) as [|b fb] eqn:Hf; simpl.
        -- split; [intros _; eauto | done].
        -- split; [discriminate | intros (blk0 & _ & _ & _ & H4); discriminate].
      * apply Nat.ltb_ge in Ht. split; [discriminate |].
        intros (blk0 & H1 & _ & H3 & _). inversion H1; subst; lia.
    + apply Nat.eqb_neq in Hv. split; [discriminate |].
      intros (blk0 & H1 & H2 & _). inversion H1; subst; lia.
  - split; [discriminate | intros (blk0 & H1 & _); discriminate].
Qed.

(** What a successful eraseInternal did. *)
Lemma eraseInternal_Ok (s : FTL) (req : PALRequest) (tick : Z) (s' : FTL) (t' : Z) :
  eraseInternal cfg ext s req tick = Ok (s', t') ->
  exists blk, blocks s !! reqBlockIndex req = Some blk /\
    getValidPageCount blk = 0%nat /\
    blocks s' = delete (reqBlockIndex req) (blocks s) /\
    table s' = table s /\
    (((S (eraseCount blk) < badBlockThreshold cfg)%nat /\ freeBlocks s <> [] /\
      freeBlocks s' = emplaceAt (freeBlocks s)
        (reverseSearch (freeBlocks s) (S (eraseCount blk)) (length (freeBlocks s)))
        (blockErase blk) /\
      nFreeBlocks s' = S (nFreeBlocks s)) \/
     ((badBlockThreshold cfg <= S (eraseCount blk))%nat /\
      freeBlocks s' = freeBlocks s /\ nFreeBlocks s' = nFreeBlocks s)).
Proof.
  unfold eraseInternal. unfold_bind.
  destruct (blocks s !! reqBlockIndex req) as [blk|] eqn:Hb; [|discriminate].
  destruct (getValidPageCount blk =? 0)%nat eqn:Hv; simpl; [|discriminate].
  apply Nat.eqb_eq in Hv.
  destruct (S (eraseCount blk) <? badBlockThreshold cfg)%nat eqn:Ht.
  - apply Nat.ltb_lt in Ht.
    destruct (freeBlocks s) as [|b fb] eqn:Hf; simpl; [discriminate|].
    intros H; inversion H; subst; clear H.
    exists blk; simpl; do 4 (split; [done|]).
    left; repeat split; auto; discriminate.
  - apply Nat.ltb_ge in Ht. intros H; inversion H; subst; clear H.
    exists blk; simpl; do 4 (split; [done|]).
    right; repeat split; auto.
Qed.


(** What a successful getFreeBlock did. *)
Lemma getFreeBlock_Ok (s : FTL) (idx : nat) (s' : FTL) (b : nat) :
  getFreeBlock cfg s idx = Ok (s', b) ->
  exists i blk, freeBlocks s !! i = Some blk /\
    blocks s !! blockIndex blk = None /\
    (0 < nFreeBlocks s)%nat /\
    freeBlocks s' = delete i (freeBlocks s) /\
    nFreeBlocks s' = (nFreeBlocks s - 1)%nat /\
    blocks s' = <[blockIndex blk := blk]> (blocks s) /\
    table s' = table s.
Proof.
  unfold getFreeBlock.
  destruct (pageCountToMaxPerf cfg <=? idx)%nat; [discriminate|].
  destruct (0 <? nFreeBlocks s)%nat eqn:Hn; [|discriminate].
  apply Nat.ltb_lt in Hn.
  set (pos := match list_find _ _ with Some _ => _ | None => _ end).
  destruct pos as [i|]; [|discriminate].
  destruct (freeBlocks s !! i) as [blk|] eqn:Hi; [|discriminate].
  destruct (blocks s !! blockIndex blk) eqn:Hb; [discriminate|].
  intros H; inversion H; subst; clear H.
  exists i, blk; simpl; repeat split; auto.
Qed.

(** *** Counting blocks (C3) *)

Lemma poolStep_count (s s' : FTL) (d : nat) :
  poolStep cfg ext s s' d ->
  (nFreeBlocks s' + size (blocks s') + d = nFreeBlocks s + size (blocks s))%nat.
Proof.
  destruct 1 as [s idx s' b H | s req tick s' tick' H | s k blk v H | s t].
  - apply getFreeBlock_Ok in H as (i & blk & _ & Hb & Hn & _ & Hn' & Hbl & _).
    rewrite Hn', Hbl, map_size_insert_None by done. lia.
  - pose proof H as H0.
    apply eraseInternal_Ok in H as (blk & Hb & _ & Hbl & _ & Hcase).
    unfold retiredBy. rewrite Hb, Hbl, map_size_delete_Some by eauto.
    assert (0 < size (blocks s))%nat.
    { destruct (size (blocks s)) eqn:Hz; [|lia].
      apply map_size_empty_inv in Hz. rewrite Hz in Hb. done. }
    destruct Hcase as [(Ht & _ & _ & Hn) | (Ht & _ & Hn)].
    + apply Nat.ltb_lt in Ht. rewrite Ht, Hn. lia.
    + apply Nat.ltb_ge in Ht. rewrite Ht, Hn. lia.
  - simpl. rewrite map_size_insert_Some by eauto. lia.
  - simpl. lia.
Qed.

Lemma allocateLastFreeBlocks_count (i k : nat) (s s' : FTL) :
  allocateLastFreeBlocks cfg i k s = Ok s' ->
  (nFreeBlocks s' + size (blocks s') = nFreeBlocks s + size (blocks s))%nat.
Proof.
  revert i s. induction k as [|k IH]; intros i s H; simpl in H.
  - inversion H; subst; reflexivity.
  - unfold_bind. destruct (getFreeBlock cfg s i) as [[s1 b]| |] eqn:Hg; try discriminate.
    apply IH in H. pose proof (poolStep_count s s1 0 (step_getFreeBlock cfg ext s i s1 b Hg)).
    lia.
Qed.

Lemma construct_count (s : FTL) :
  construct cfg = Ok s ->
  (nFreeBlocks s + size (blocks s) = totalPhysicalBlocks cfg)%nat.
Proof.
  unfold construct. intros H. apply allocateLastFreeBlocks_count in H.
  rewrite H. simpl. rewrite map_size_empty. lia.
Qed.

(** C3 (amended): across any sequence of pool operations from the
    constructed state, the free blocks, the in-use blocks and the blocks
    retired as bad add up to [totalPhysicalBlocks]. *)
Theorem blockCount_reachable (s : FTL) (r : nat)
  (Hr : reachable cfg ext s r) :
  (nFreeBlocks s + size (blocks s) + r = totalPhysicalBlocks cfg)%nat.
Proof.
  induction Hr as [s H | s r s' d Hr IH Hstep].
  - apply construct_count in H. lia.
  - apply poolStep_count in Hstep. lia.
Qed.

(** *** The order of the free list (C5) *)

Lemma sorted_lookup (l : list Block) (i j : nat) (a b : Block) :
  StronglySorted ecLe l -> l !! i = Some a -> l !! j = Some b -> (i < j)%nat -> ecLe a b.
Proof.
  revert i j. induction l as [|c l IH]; intros i j Hs Ha Hb Hij; [done|].
  apply StronglySorted_cons in Hs as [Hf Hs].
  destruct i as [|i], j as [|j]; simpl in *; try lia.
  - inversion Ha; subst. rewrite Forall_lookup in Hf. eauto.
  - eapply IH; eauto; lia.
Qed.

Lemma sorted_delete (l : list Block) (i : nat) :
  StronglySorted ecLe l -> StronglySorted ecLe (delete i l).
Proof.
  revert i. induction l as [|c l IH]; intros i Hs; [done|].
  apply StronglySorted_cons in Hs as [Hf Hs].
  destruct i as [|i]; simpl; [done|].
  constructor; [by apply IH | by apply Forall_delete].
Qed.

Lemma sorted_const (l : list Block) (c : nat) :
  Forall (fun b => eraseCount b = c) l -> StronglySorted ecLe l.
Proof.
  induction 1 as [|b l Hb Hl IH]; constructor; [done|].
  eapply Forall_impl; [exact Hl|]. intros x Hx. unfold ecLe. simpl in *. lia.
Qed.

(** The reverse scan stops at the position [q] such that every block from
    [q] up to the start position has a larger erase count, and the block
    just before [q] has an erase count no larger than [x]. *)
Lemma reverseSearch_spec (fb : list Block) (x p : nat) :
  (1 <= p <= length fb)%nat ->
  (reverseSearch fb x p <= p)%nat /\
  (forall k b, (reverseSearch fb x p <= k < p)%nat -> fb !! k = Some b ->
     (x < eraseCount b)%nat) /\
  (forall b, (0 < reverseSearch fb x p)%nat ->
     fb !! (reverseSearch fb x p - 1)%nat = Some b -> (eraseCount b <= x)%nat).
Proof.
  induction p as [|p IH]; intros Hp; [lia|].
  simpl. destruct (fb !! p) as [b0|] eqn:Hb0.
  2: { apply lookup_ge_None in Hb0. lia. }
  destruct (eraseCount b0 <=? x)%nat eqn:Hle.
  - apply Nat.leb_le in Hle. split; [lia|]. split.
    + intros k b Hk. lia.
    + intros b _ Hb. replace (S p - 1)%nat with p in Hb by lia.
      rewrite Hb0 in Hb. inversion Hb; subst. done.
  - apply Nat.leb_gt in Hle. destruct p as [|p'].
    + split; [lia|]. split.
      * intros k b Hk Hb. assert (k = 0%nat) as -> by lia.
        rewrite Hb0 in Hb. inversion Hb; subst. done.
      * intros b Hq. lia.
    + destruct (IH ltac:(lia)) as (H1 & H2 & H3).
      split; [lia|]. split; [|exact H3].
      intros k b Hk Hb. destruct (decide (k = S p')) as [->|Hne].
      * rewrite Hb0 in Hb. inversion Hb; subst. done.
      * apply (H2 k b); [lia|done].
Qed.

Lemma emplace_sorted (fb : list Block) (nb : Block) :
  StronglySorted ecLe fb -> fb <> [] ->
  StronglySorted ecLe
    (emplaceAt fb (reverseSearch fb (eraseCount nb) (length fb)) nb).
Proof.
  intros Hs Hne. set (x := eraseCount nb).
  destruct (reverseSearch_spec fb x (length fb)) as (H1 & H2 & H3).
  { destruct fb; simpl; [done|lia]. }
  set (q := reverseSearch fb x (length fb)) in *.
  assert (Htake : forall a, a ∈ take q fb -> (eraseCount a <= x)%nat).
  { intros a Ha. apply elem_of_take in Ha as (i & Hi & Hiq).
    destruct (fb !! (q - 1)%nat) as [c|] eqn:Hc.
    - assert (eraseCount c <= x)%nat by (apply H3; [lia|done]).
      destruct (decide (i = q - 1)%nat) as [->|Hne'].
      + rewrite Hi in Hc. inversion Hc; subst. lia.
      + assert (ecLe a c) by (eapply sorted_lookup; [exact Hs|exact Hi|exact Hc|lia]).
        unfold ecLe in *. lia.
    - apply lookup_ge_None in Hc. apply lookup_lt_Some in Hi. lia. }
  assert (Hdrop : forall a, a ∈ drop q fb -> (x < eraseCount a)%nat).
  { intros a Ha. apply list_elem_of_lookup in Ha as (i & Hi).
    rewrite lookup_drop in Hi.
    apply (H2 (q + i)%nat a); [|done]. apply lookup_lt_Some in Hi. lia. }
  rewrite <- (take_drop q fb) in Hs.
  unfold emplaceAt. apply StronglySorted_app_2.
  - intros a c Ha Hc. apply Htake in Ha. apply elem_of_cons in Hc as [->|Hc].
    + unfold ecLe. subst x. lia.
    + apply Hdrop in Hc. unfold ecLe. lia.
  - eapply StronglySorted_app_1_l. exact Hs.
  - constructor.
    + eapply StronglySorted_app_1_r. exact Hs.
    + apply Forall_forall. intros a Ha.
      apply Hdrop in Ha. unfold ecLe. lia.
Qed.

Lemma poolStep_sorted (s s' : FTL) (d : nat) :
  poolStep cfg ext s s' d ->
  StronglySorted ecLe (freeBlocks s) -> StronglySorted ecLe (freeBlocks s').
Proof.
  destruct 1 as [s idx s' b H | s req tick s' tick' H | s k blk v H | s t]; intros Hs.
  - apply getFreeBlock_Ok in H as (i & blk & _ & _ & _ & Hf & _).
    rewrite Hf. by apply sorted_delete.
  - apply eraseInternal_Ok in H as (blk & _ & _ & _ & _ & Hcase).
    destruct Hcase as [(_ & Hne & Hf & _) | (_ & Hf & _)]; rewrite Hf; [|done].
    change (S (eraseCount blk)) with (eraseCount (blockErase blk)).
    by apply emplace_sorted.
  - done.
  - done.
Qed.

Lemma allocateLastFreeBlocks_sorted (i k : nat) (s s' : FTL) :
  allocateLastFreeBlocks cfg i k s = Ok s' ->
  StronglySorted ecLe (freeBlocks s) -> StronglySorted ecLe (freeBlocks s').
Proof.
  revert i s. induction k as [|k IH]; intros i s H Hs; simpl in H.
  - inversion H; subst; done.
  - unfold_bind. destruct (getFreeBlock cfg s i) as [[s1 b]| |] eqn:Hg; try discriminate.
    eapply IH; [exact H|].
    exact (poolStep_sorted s s1 0 (step_getFreeBlock cfg ext s i s1 b Hg) Hs).
Qed.

(** C5: in every reachable state the free list is sorted by ascending
    erase count: every adjacent pair is in order. *)
Theorem freeBlocks_sorted (s : FTL) (r : nat)
  (Hr : reachable cfg ext s r) :
  Sorted ecLe (freeBlocks s).
Proof.
  apply StronglySorted_Sorted.
  induction Hr as [s H | s r s' d Hr IH Hstep].
  - unfold construct in H. eapply allocateLastFreeBlocks_sorted; [exact H|].
    simpl. apply (sorted_const _ (initialEraseCount cfg)).
    unfold initialFreeBlocks. apply Forall_forall. intros b Hb.
    apply list_elem_of_In, in_map_iff in Hb as (i & <- & _). done.
  - eapply poolStep_sorted; eauto.
Qed.

(** *** Trim (C7) *)

Lemma trimInternal_unmaps (s s' : FTL) (req : Request) (tick t' : Z) :
  trimInternal cfg ext s req tick = Ok (s', t') -> table s' !! lpn req = None.
Proof.
  unfold trimInternal. unfold_bind.
  destruct (table s !! lpn req) as [ml|] eqn:Ht.
  - destruct (invalidateSlots (blocks s) ml 0 (bitsetSize cfg) []) as [[bl acc]| |];
      try discriminate.
    intros H; inversion H; subst; simpl. apply lookup_delete_eq.
  - intros H; inversion H; subst. exact Ht.
Qed.

(** C7: a second trim of the same LPN finds no mapping: it leaves the
    state of the first trim unchanged and only charges the CPU latency. *)
Theorem trim_idempotent (s s1 : FTL) (req : Request) (tick t1 : Z)
  (H1 : trim cfg ext s req tick = Ok (s1, t1)) :
  forall tick', trim cfg ext s1 req tick' = Ok (s1, u64 (tick' + cpu ext TRIM)).
Proof.
  intros tick'. unfold trim in *. unfold_bind.
  destruct (trimInternal cfg ext s req tick) as [[s0 t0]| |] eqn:Ht; try discriminate.
  inversion H1; subst s0. apply trimInternal_unmaps in Ht.
  unfold trimInternal. rewrite Ht. reflexivity.
Qed.

(** *** Empty requests (C8) *)

(** C8: a read or a write whose bitmap has no bit set leaves the state
    alone, whatever the internal operation would do, and only charges the
    CPU latency of the operation. *)
Theorem empty_request_noop (readInternal writeInternal : FTL -> Request -> Z -> outcome (FTL * Z))
  (s : FTL) (req : Request) (tick : Z)
  (Hempty : bitCount (ioFlag req) = 0%nat) :
  read ext readInternal s req tick = Ok (s, u64 (tick + cpu ext READ)) /\
  write ext writeInternal s req tick = Ok (s, u64 (tick + cpu ext WRITE)).
Proof.
  unfold read, write. rewrite Hempty. split; reflexivity.
Qed.

(** *** Sentinel slots (C9) *)

Lemma invalidateSlots_outcome (bl : gmap nat Block) (ml : list (nat * nat))
    (idx k : nat) (acc : list nat) (b0 : nat) :
  (idx + k <= length ml)%nat -> bl !! b0 = None ->
  invalidateSlots bl ml idx k acc = Panic "Block is not in use" \/
  exists bl' acc', invalidateSlots bl ml idx k acc = Ok (bl', acc') /\ bl' !! b0 = None.
Proof.
  revert bl idx acc. induction k as [|k IH]; intros bl idx acc Hlen Hb0; simpl.
  - right. eauto.
  - destruct (ml !! idx) as [[b page]|] eqn:Hi.
    2: { apply lookup_ge_None in Hi. lia. }
    destruct (bl !! b) as [blk|] eqn:Hb; [|by left].
    apply IH; [lia|]. rewrite lookup_insert_ne; [done|]. congruence.
Qed.

Lemma invalidateSlots_sentinel (bl : gmap nat Block) (ml : list (nat * nat))
    (idx k : nat) (acc : list nat) (i0 b0 p0 : nat) :
  (idx <= i0 < idx + k)%nat -> (idx + k <= length ml)%nat ->
  ml !! i0 = Some (b0, p0) -> bl !! b0 = None ->
  invalidateSlots bl ml idx k acc = Panic "Block is not in use".
Proof.
  revert bl idx acc. induction k as [|k IH]; intros bl idx acc Hi0 Hlen Hml Hb0; [lia|].
  simpl. destruct (ml !! idx) as [[b page]|] eqn:Hi.
  2: { apply lookup_ge_None in Hi. lia. }
  destruct (bl !! b) as [blk|] eqn:Hb; [|done].
  destruct (decide (i0 = idx)) as [->|Hne].
  - rewrite Hml in Hi. inversion Hi; subst. congruence.
  - apply IH; [lia|lia|done|]. rewrite lookup_insert_ne; [done|]. congruence.
Qed.

Lemma formatEntries_sentinel (rng : LPNRange) (entries : list (nat * list (nat * nat)))
    (bl : gmap nat Block) (tbl : gmap nat (list (nat * nat))) (acc : list nat)
    (l0 : nat) (ml0 : list (nat * nat)) (i0 b0 p0 : nat) :
  (l0, ml0) ∈ entries ->
  inLPNRange rng l0 = true ->
  (i0 < bitsetSize cfg)%nat -> ml0 !! i0 = Some (b0, p0) -> bl !! b0 = None ->
  (forall l ml, (l, ml) ∈ entries -> length ml = bitsetSize cfg) ->
  formatEntries cfg rng entries bl tbl acc = Panic "Block is not in use".
Proof.
  revert bl tbl acc. induction entries as [|[l ml] rest IH]; intros bl tbl acc Hin Hrng Hi0 Hml Hb0 Hwf.
  - by apply elem_of_nil in Hin.
  - assert (Hlen : length ml = bitsetSize cfg) by (apply (Hwf l); left).
    assert (Hwf' : forall l' ml', (l', ml') ∈ rest -> length ml' = bitsetSize cfg)
      by (intros; apply (Hwf l'); by right).
    simpl. unfold_bind.
    apply elem_of_cons in Hin as [Heq | Hin].
    + inversion Heq; subst l ml.
      rewrite Hrng.
      rewrite (invalidateSlots_sentinel _ _ 0 _ _ i0 b0 p0); [done|lia|lia|done|done].
    + destruct (inLPNRange rng l).
      * destruct (invalidateSlots_outcome bl ml 0 (bitsetSize cfg) acc b0)
          as [-> | (bl' & acc' & -> & Hb0')]; [lia|done|done|].
        apply IH; auto.
      * apply IH; auto.
Qed.

Lemma bounds_step (s s' : FTL) (d n : nat) :
  poolStep cfg ext s s' d ->
  (forall b, b ∈ freeBlocks s -> (blockIndex b < n)%nat) /\
  (forall k b, blocks s !! k = Some b -> (k < n)%nat /\ (blockIndex b < n)%nat) ->
  (forall b, b ∈ freeBlocks s' -> (blockIndex b < n)%nat) /\
  (forall k b, blocks s' !! k = Some b -> (k < n)%nat /\ (blockIndex b < n)%nat).
Proof.
  intros Hstep [Hf Hb].
  destruct Hstep as [s idx s' b H | s req tick s' tick' H | s k blk v H | s t].
  - apply getFreeBlock_Ok in H as (i & blk & Hi & _ & _ & Hf' & _ & Hbl & _).
    assert (Hlt : (blockIndex blk < n)%nat) by (apply Hf; by eapply list_elem_of_lookup_2).
    rewrite Hf', Hbl. split.
    + intros b0 Hb0. apply Hf. eapply elem_of_sublist; [exact Hb0|]. apply sublist_delete.
    + intros k b0 Hk. apply lookup_insert_Some in Hk as [[<- <-] | [_ Hk]]; [lia|].
      by apply Hb.
  - apply eraseInternal_Ok in H as (blk & Hblk & _ & Hbl & _ & Hcase).
    rewrite Hbl. split.
    + destruct Hcase as [(_ & _ & Hf' & _) | (_ & Hf' & _)]; rewrite Hf'; [|done].
      intros b0 Hb0. unfold emplaceAt in Hb0.
      apply elem_of_app in Hb0 as [Hb0 | Hb0].
      * apply Hf. apply elem_of_take in Hb0 as (i & Hi & _).
        by eapply list_elem_of_lookup_2.
      * apply elem_of_cons in Hb0 as [-> | Hb0].
        -- simpl. by apply (Hb (reqBlockIndex req)).
        -- apply Hf. apply list_elem_of_lookup in Hb0 as (i & Hi).
           rewrite lookup_drop in Hi. by eapply list_elem_of_lookup_2.
    + intros k b0 Hk. apply lookup_delete_Some in Hk as [_ Hk]. by apply Hb.
  - split; [done|]. simpl. intros k' b0 Hk.
    apply lookup_insert_Some in Hk as [[<- <-] | [_ Hk]]; [|by apply Hb].
    simpl. by apply Hb in H.
  - split; done.
Qed.

Lemma allocateLastFreeBlocks_bounds (i k : nat) (s s' : FTL) (n : nat) :
  allocateLastFreeBlocks cfg i k s = Ok s' ->
  (forall b, b ∈ freeBlocks s -> (blockIndex b < n)%nat) /\
  (forall k b, blocks s !! k = Some b -> (k < n)%nat /\ (blockIndex b < n)%nat) ->
  (forall b, b ∈ freeBlocks s' -> (blockIndex b < n)%nat) /\
  (forall k b, blocks s' !! k = Some b -> (k < n)%nat /\ (blockIndex b < n)%nat).
Proof.
  revert i s. induction k as [|k IH]; intros i s H Hs; simpl in H.
  - inversion H; subst; done.
  - unfold_bind. destruct (getFreeBlock cfg s i) as [[s1 b]| |] eqn:Hg; try discriminate.
    eapply IH; [exact H|].
    exact (bounds_step s s1 0 n (step_getFreeBlock cfg ext s i s1 b Hg) Hs).
Qed.

(** Every block index, free or in use, is below [totalPhysicalBlocks]. *)
Lemma reachable_bounds (s : FTL) (r : nat) :
  reachable cfg ext s r ->
  (forall b, b ∈ freeBlocks s -> (blockIndex b < totalPhysicalBlocks cfg)%nat) /\
  (forall k b, blocks s !! k = Some b ->
     (k < totalPhysicalBlocks cfg)%nat /\ (blockIndex b < totalPhysicalBlocks cfg)%nat).
Proof.
  induction 1 as [s H | s r s' d Hr IH Hstep].
  - unfold construct in H. eapply allocateLastFreeBlocks_bounds; [exact H|].
    simpl. split.
    + intros b Hb. unfold initialFreeBlocks in Hb.
      apply list_elem_of_In, in_map_iff in Hb as (i & <- & Hi).
      apply in_seq in Hi. simpl. lia.
    + intros k b Hk. rewrite lookup_empty in Hk. discriminate.
  - eapply bounds_step; eauto.
Qed.

(** C9: a reachable state whose mapping vector for an LPN still holds the
    sentinel (totalPhysicalBlocks, pagesInBlock) in some slot makes trim of
    that LPN, and format of any range containing it, panic with "Block is
    not in use".  A range contains the LPN when format's own uint64 test
    [inLPNRange] accepts it. *)
Theorem sentinel_slot_panics (s : FTL) (r : nat) (req : Request) (tick : Z)
  (ml : list (nat * nat)) (idx : nat)
  (Hr : reachable cfg ext s r)
  (Hwf : forall l ml', table s !! l = Some ml' -> length ml' = bitsetSize cfg)
  (Hlpn : table s !! lpn req = Some ml)
  (Hidx : (idx < bitsetSize cfg)%nat)
  (Hsent : ml !! idx = Some (totalPhysicalBlocks cfg, pagesInBlock cfg)) :
  trim cfg ext s req tick = Panic "Block is not in use" /\
  (forall gc rng, inLPNRange rng (lpn req) = true ->
     format cfg ext gc s rng tick = Panic "Block is not in use").
Proof.
  assert (Hnone : blocks s !! totalPhysicalBlocks cfg = None).
  { destruct (blocks s !! totalPhysicalBlocks cfg) as [b|] eqn:Hb; [|done].
    apply (reachable_bounds s r Hr) in Hb. lia. }
  assert (Hlen : length ml = bitsetSize cfg) by (eapply Hwf; exact Hlpn).
  split.
  - unfold trim, trimInternal. unfold_bind. rewrite Hlpn.
    rewrite (invalidateSlots_sentinel _ _ 0 _ _ idx (totalPhysicalBlocks cfg)
               (pagesInBlock cfg)); [done|lia|lia|done|done].
  - intros gc rng Hrng. unfold format. unfold_bind.
    rewrite (formatEntries_sentinel rng _ _ _ _ (lpn req) ml idx
               (totalPhysicalBlocks cfg) (pagesInBlock cfg)); try done.
    + by apply elem_of_map_to_list.
    + intros l ml' Hin. apply elem_of_map_to_list in Hin. eauto.
Qed.

Lemma issueReads_spec (rs : list PALRequest) (t rf : Z) (tr : list IoEvent) :
  issueReads ext rs t rf tr =
  (latestFinish rf (map (fun r => mkIoEvent IoRead t (palRead ext r t)) rs),
   tr ++ map (fun r => mkIoEvent IoRead t (palRead ext r t)) rs).
Proof.
  revert rf tr. induction rs as [|r rs IH]; intros rf tr; simpl.
  - by rewrite app_nil_r.
  - rewrite IH, <- app_assoc. reflexivity.
Qed.

Lemma issueWrites_spec (ws : list PALRequest) (rf wf : Z) (tr : list IoEvent) :
  issueWrites ext ws rf wf tr =
  (latestFinish wf (map (fun w => mkIoEvent IoWrite rf (palWrite ext w rf)) ws),
   tr ++ map (fun w => mkIoEvent IoWrite rf (palWrite ext w rf)) ws).
Proof.
  revert wf tr. induction ws as [|w ws IH]; intros wf tr; simpl.
  - by rewrite app_nil_r.
  - rewrite IH, <- app_assoc. reflexivity.
Qed.

Lemma issueErases_spec (s : FTL) (es : list PALRequest) (rf ef : Z)
    (tr : list IoEvent) (s' : FTL) (ef' : Z) (tr' : list IoEvent) :
  issueErases cfg ext s es rf ef tr = Ok (s', ef', tr') ->
  exists er, tr' = tr ++ er /\ length er = length es /\
    Forall (fun e => evKind e = IoErase /\ evBegin e = rf) er /\
    ef' = latestFinish ef er.
Proof.
  revert s ef tr. induction es as [|e es IH]; intros s0 ef tr H; simpl in H.
  - injection H as -> -> ->. exists []. rewrite app_nil_r. repeat split; auto.
  - unfold_bind. destruct (eraseInternal cfg ext s0 e rf) as [[s1 f]| |]; try discriminate.
    apply IH in H as (er & -> & Hlen & Hall & ->).
    exists (mkIoEvent IoErase rf f :: er). rewrite <- app_assoc. simpl.
    repeat split; auto.
Qed.

(** C6: the I/O phase of one doGarbageCollection call.  The reads all
    begin at the tick left by the collecting loop, which the DRAM reads of
    the mapping entries have advanced; writes and erases all begin at the
    latest of the pre-GC tick and the read finish times; the result is the
    latest of the pre-GC tick and the write and erase finish times, plus
    the CPU latency of DO_GARBAGE_COLLECTION.  With no victim the call
    returns at once with the tick unchanged. *)
Theorem gc_io_schedule (s s' : FTL) (v : nat) (vs : list nat)
    (writes : list PALRequest) (tick t tick1 : Z) (bl : gmap nat Block)
    (reads erases : list PALRequest) (tr : list IoEvent)
    (Hcol : gcCollect cfg ext (v :: vs) (blocks s) tick [] [] =
            Ok (bl, tick1, reads, erases))
    (Hgc : doGarbageCollection cfg ext s (v :: vs) writes tick = Ok (s', t, tr)) :
  let rd := map (fun r => mkIoEvent IoRead tick1 (palRead ext r tick1)) reads in
  let R := latestFinish tick rd in
  let wr := map (fun w => mkIoEvent IoWrite R (palWrite ext w R)) writes in
  (exists er, tr = rd ++ wr ++ er /\ length er = length erases /\
     Forall (fun e => evKind e = IoErase /\ evBegin e = R) er /\
     t = u64 (Z.max (latestFinish tick wr) (latestFinish tick er)
              + cpu ext DO_GARBAGE_COLLECTION)) /\
  doGarbageCollection cfg ext s [] writes tick = Ok (s, tick, []).
Proof.
  intros rd R wr. split; [|reflexivity].
  unfold doGarbageCollection in Hgc. rewrite Hcol in Hgc. unfold_bind.
  rewrite issueReads_spec, issueWrites_spec in Hgc.
  destruct (issueErases cfg ext _ erases _ tick _) as [[[s1 ef] tr3]| |] eqn:He;
    try discriminate.
  injection Hgc as <- <- <-.
  apply issueErases_spec in He as (er & -> & Hlen & Hall & ->).
  exists er. rewrite <- app_assoc. simpl. repeat split; auto.
Qed.

Lemma land1_mod2 (c : Z) : Z.land c 1 = c mod 2.
Proof. change 1 with (Z.ones 1). rewrite Z.land_ones by lia. reflexivity. Qed.

Lemma pow2_succ (i : nat) : 2 ^ Z.of_nat (S i) = 2 * 2 ^ Z.of_nat i.
Proof. rewrite Nat2Z.inj_succ, Z.pow_succ_r by lia. reflexivity. Qed.

Lemma selectLevel_ge (k t : nat) (c : Z) : (t <= selectLevel k t c)%nat.
Proof.
  revert t c. induction k as [|k IH]; intros t c; simpl; [lia|].
  destruct (Z.land c 1 =? 0); [specialize (IH (S t) (Z.shiftr c 1)); lia|lia].
Qed.

Lemma selectLevel_le (k t : nat) (c : Z) : (selectLevel k t c <= t + k)%nat.
Proof.
  revert t c. induction k as [|k IH]; intros t c; simpl; [lia|].
  destruct (Z.land c 1 =? 0); [specialize (IH (S t) (Z.shiftr c 1)); lia|lia].
Qed.

(** The loop of refresh_event stops at the lowest set bit of the count,
    or after [k] steps. *)
Lemma selectLevel_divides (k t : nat) (c : Z) (i : nat) :
  (i <= k)%nat ->
  ((t + i <= selectLevel k t c)%nat <-> (2 ^ Z.of_nat i | c)).
Proof.
  revert t c i. induction k as [|k IH]; intros t c i Hi; simpl.
  - assert (i = 0%nat) as -> by lia. simpl. split; [intros _; apply Z.divide_1_l|lia].
  - rewrite land1_mod2. destruct (c mod 2 =? 0) eqn:Hev.
    + apply Z.eqb_eq in Hev.
      rewrite Z.shiftr_div_pow2 by lia. change (2 ^ 1) with 2.
      assert (Hc2 : c = 2 * (c / 2)) by (pose proof (Z.div_mod c 2); lia).
      destruct i as [|i].
      * simpl. split; [intros _; apply Z.divide_1_l|].
        intros _. pose proof (selectLevel_ge k (S t) (c / 2)). lia.
      * rewrite pow2_succ.
        replace (t + S i)%nat with (S t + i)%nat by lia.
        rewrite (IH (S t) (c / 2) i); [|lia].
        rewrite Hc2 at 2. rewrite Z.mul_divide_cancel_l by lia. reflexivity.
    + apply Z.eqb_neq in Hev.
      destruct i as [|i].
      * simpl. split; [intros _; apply Z.divide_1_l|lia].
      * split; [lia|]. intros Hd. exfalso. apply Hev.
        apply Z.mod_divide; [lia|].
        eapply Z.divide_trans; [|exact Hd]. rewrite pow2_succ.
        apply Z.divide_factor_l.
Qed.

(** C2: one firing of refresh_event sweeps the level given by the lowest
    set bit of the pre-increment count, capped at the highest level, and
    then increments the count.  So a level [i] below the top is swept
    exactly at the counts divisible by [2^i] but not by [2^(i+1)], and the
    first firing, from count 1, sweeps level 0 and leaves count 2. *)
Theorem refresh_event_spec {St : Type} (nbf : nat) (sweep : nat -> St -> St)
    (st : St) (c : Z) (Hn : (1 <= nbf)%nat) (Hc : 0 < c) :
  refresh_event nbf sweep st c =
    (sweep (refreshTarget nbf c) st, u64 (c + 1), refreshTarget nbf c) /\
  (refreshTarget nbf c <= nbf - 1)%nat /\
  (forall i, (i <= nbf - 1)%nat ->
     ((i <= refreshTarget nbf c)%nat <-> (2 ^ Z.of_nat i | c))) /\
  (forall i, (i < nbf - 1)%nat ->
     (refreshTarget nbf c = i <->
      (2 ^ Z.of_nat i | c) /\ ~ (2 ^ Z.of_nat (S i) | c))) /\
  refresh_event nbf sweep st initialRefreshCallCount = (sweep 0%nat st, 2, 0%nat).
Proof.
  assert (Hle : (refreshTarget nbf c <= nbf - 1)%nat)
    by (unfold refreshTarget; pose proof (selectLevel_le (nbf - 1) 0 c); lia).
  assert (Hdiv : forall i, (i <= nbf - 1)%nat ->
            ((i <= refreshTarget nbf c)%nat <-> (2 ^ Z.of_nat i | c)))
    by (intros i Hi; apply (selectLevel_divides (nbf - 1) 0 c i Hi)).
  split; [reflexivity|]. split; [exact Hle|]. split; [exact Hdiv|]. split.
  - intros i Hi. rewrite <- (Hdiv i) by lia. rewrite <- (Hdiv (S i)) by lia. lia.
  - unfold refresh_event, refreshTarget, initialRefreshCallCount.
    destruct (nbf - 1)%nat; reflexivity.
Qed.

Lemma countInsert_length (bf : list BloomLevel) (rtc : nat) :
  length (countInsert bf rtc) = length bf.
Proof. apply length_alter. Qed.

Lemma bloomInsert_length (bf : list BloomLevel) (rtc : nat) (item : Z) :
  length (bloomInsert bf rtc item) = length bf.
Proof. apply length_alter. Qed.

Lemma countInsert_insertedAt (bf : list BloomLevel) (rtc L : nat) :
  insertedAt (countInsert bf rtc) L = insertedAt bf L.
Proof.
  unfold insertedAt, countInsert. rewrite list_lookup_alter.
  case_decide; [subst; destruct (bf !! L); reflexivity|reflexivity].
Qed.

Lemma setRefreshPeriod_length (st : RefreshState) (b l rtc : nat) :
  length (bloomFilters (setRefreshPeriod st b l rtc)) = length (bloomFilters st).
Proof.
  unfold setRefreshPeriod. simpl. rewrite bloomInsert_length.
  destruct (refresh_table st !! refreshKey b l) as [r|]; simpl;
    [destruct (rtc <? r)%nat; simpl|]; try apply countInsert_length; done.
Qed.

(** setRefreshPeriod adds the key to level [rtc] and to no other level. *)
Lemma setRefreshPeriod_insertedAt (st : RefreshState) (b l rtc L : nat) :
  insertedAt (bloomFilters (setRefreshPeriod st b l rtc)) L =
  if (L =? rtc)%nat then cons (refreshKey b l) <$> insertedAt (bloomFilters st) L
  else insertedAt (bloomFilters st) L.
Proof.
  unfold setRefreshPeriod. simpl.
  set (bf1 := bloomFilters (match refresh_table st !! refreshKey b l with
                            | Some r => if (rtc <? r)%nat then _ else st
                            | None => _ end)).
  assert (Hbf1 : forall L', insertedAt bf1 L' = insertedAt (bloomFilters st) L').
  { intros L'. subst bf1. destruct (refresh_table st !! refreshKey b l) as [r|]; simpl;
      [destruct (rtc <? r)%nat; simpl|]; try apply countInsert_insertedAt; done. }
  unfold bloomInsert. rewrite <- Hbf1. unfold insertedAt.
  rewrite list_lookup_alter. destruct (L =? rtc)%nat eqn:HL.
  - apply Nat.eqb_eq in HL as ->. rewrite decide_True by done.
    destruct (bf1 !! rtc); reflexivity.
  - apply Nat.eqb_neq in HL. rewrite decide_False by congruence. reflexivity.
Qed.

Lemma registerLoop_length (rx : Z -> nat -> nat -> bool) (n b ec layer i : nat)
    (j : Z) (st : RefreshState) :
  length (bloomFilters (registerLoop cfg rx n b ec layer i j st)) =
  length (bloomFilters st).
Proof.
  revert j st. induction i as [|i IH]; intros j st; cbn [registerLoop]; [done|].
  rewrite IH. destruct (S i =? n)%nat; [apply setRefreshPeriod_length|].
  destruct (rx _ ec layer); [apply setRefreshPeriod_length|done].
Qed.

Lemma shiftr_pow2 (i : nat) : Z.shiftr (2 ^ Z.of_nat (S i)) 1 = 2 ^ Z.of_nat i.
Proof.
  rewrite Z.shiftr_div_pow2 by lia. rewrite pow2_succ. change (2 ^ 1) with 2.
  rewrite Z.mul_comm. apply Z.div_mul. lia.
Qed.

(** The loop over the levels [i-1], ..., [0]: level [L] gets the key when
    it is the top level [n-1] or when the error model exceeds the ECC
    threshold at the period [base * 2^L]. *)
Lemma registerLoop_insertedAt (rx : Z -> nat -> nat -> bool) (n b ec layer : nat) :
  forall i st L, (i <= n)%nat ->
  insertedAt (bloomFilters (registerLoop cfg rx n b ec layer i
                              (match i with O => 0 | S i' => 2 ^ Z.of_nat i' end) st)) L =
  if (L <? i)%nat && ((L =? n - 1)%nat || rx (probePeriod cfg (2 ^ Z.of_nat L)) ec layer)
  then cons (refreshKey b layer) <$> insertedAt (bloomFilters st) L
  else insertedAt (bloomFilters st) L.
Proof.
  induction i as [|i IH]; intros st L Hi; cbn [registerLoop]; [by rewrite andb_false_l|].
  set (st' := if (S i =? n)%nat then setRefreshPeriod st b layer i
              else if rx (probePeriod cfg (2 ^ Z.of_nat i)) ec layer
                   then setRefreshPeriod st b layer i else st).
  assert (Hj : Z.shiftr (2 ^ Z.of_nat i) 1 = match i with O => 0 | S i' => 2 ^ Z.of_nat i' end).
  { destruct i; [reflexivity|apply shiftr_pow2]. }
  rewrite Hj, IH by lia.
  assert (Hst' : insertedAt (bloomFilters st') L =
    if (L =? i)%nat && ((L =? n - 1)%nat || rx (probePeriod cfg (2 ^ Z.of_nat L)) ec layer)
    then cons (refreshKey b layer) <$> insertedAt (bloomFilters st) L
    else insertedAt (bloomFilters st) L).
  { subst st'. destruct (S i =? n)%nat eqn:Hn.
    - apply Nat.eqb_eq in Hn. rewrite setRefreshPeriod_insertedAt.
      destruct (L =? i)%nat eqn:HL; [|done].
      apply Nat.eqb_eq in HL. subst. by rewrite (proj2 (Nat.eqb_eq _ _)) by lia.
    - apply Nat.eqb_neq in Hn.
      destruct (L =? i)%nat eqn:HL.
      + apply Nat.eqb_eq in HL. subst L. rewrite (proj2 (Nat.eqb_neq i (n - 1))) by lia.
        simpl. destruct (rx _ ec layer); [|done].
        rewrite setRefreshPeriod_insertedAt. by rewrite Nat.eqb_refl.
      + destruct (rx _ ec layer); [|done].
        rewrite setRefreshPeriod_insertedAt. by rewrite HL. }
  rewrite Hst'.
  destruct (L <? i)%nat eqn:Hlt.
  - apply Nat.ltb_lt in Hlt.
    rewrite (proj2 (Nat.eqb_neq L i)) by lia.
    rewrite (proj2 (Nat.ltb_lt L (S i))) by lia. reflexivity.
  - apply Nat.ltb_ge in Hlt. simpl.
    destruct (L =? i)%nat eqn:HL.
    + apply Nat.eqb_eq in HL. subst. by rewrite (proj2 (Nat.ltb_lt i (S i))) by lia.
    + apply Nat.eqb_neq in HL. by rewrite (proj2 (Nat.ltb_ge L (S i))) by lia.
Qed.

(** C1: registering one written io-unit inserts the (block, layer) key
    into the top level [n-1] always, and into a level [L < n-1] exactly
    when the error model exceeds the ECC threshold at the period
    [base * 2^L]: the level [i-1] is paired with the exponent [i-1], not
    [i].  No other level changes. *)
Theorem registerRefresh_levels (rberExceeds : Z -> nat -> nat -> bool)
    (st : RefreshState) (block_id eraseCnt page : nat)
    (Hn1 : (1 <= length (bloomFilters st))%nat)
    (Hn32 : (length (bloomFilters st) <= 32)%nat) :
  length (bloomFilters (registerRefresh cfg rberExceeds st block_id eraseCnt page)) =
    length (bloomFilters st) /\
  forall L, (L < length (bloomFilters st))%nat ->
    insertedAt (bloomFilters (registerRefresh cfg rberExceeds st block_id eraseCnt page)) L =
    if (L =? length (bloomFilters st) - 1)%nat
       || rberExceeds (probePeriod cfg (2 ^ Z.of_nat L)) eraseCnt (page mod 64)%nat
    then cons (refreshKey block_id (page mod 64)%nat) <$> insertedAt (bloomFilters st) L
    else insertedAt (bloomFilters st) L.
Proof.
  unfold registerRefresh. set (n := length (bloomFilters st)).
  assert (Hj : Z.shiftl 1 (Z.of_nat n - 1) mod 2 ^ 32 =
               match n with O => 0 | S i' => 2 ^ Z.of_nat i' end).
  { destruct n as [|m] eqn:En; [lia|].
    rewrite Z.shiftl_1_l. replace (Z.of_nat (S m) - 1) with (Z.of_nat m) by lia.
    apply Z.mod_small. split; [lia|]. apply Z.pow_lt_mono_r; lia. }
  rewrite Hj. split; [apply registerLoop_length|].
  intros L HL. rewrite registerLoop_insertedAt by lia.
  by rewrite (proj2 (Nat.ltb_lt L n)) by lia.
Qed.

(** ** Further properties of the code *)

(** *** getStatus *)

Lemma size_as_filter_seq (m : gmap nat (list (nat * nat))) (n : nat) :
  (forall l, is_Some (m !! l) -> (l < n)%nat) ->
  size m = length (filter (fun l => is_Some (m !! l)) (seq 0 n)).
Proof.
  intros Hk. rewrite <- size_dom.
  assert (E : dom m ≡ list_to_set (C := gset nat) (filter (fun l => is_Some (m !! l)) (seq 0 n))).
  { intros x. rewrite elem_of_dom, elem_of_list_to_set, list_elem_of_filter, elem_of_seq.
    split; [intros H; split; [exact H|specialize (Hk x H); lia]|intros [H _]; exact H]. }
  apply leibniz_equiv in E. rewrite E. apply size_list_to_set.
  apply NoDup_filter, NoDup_seq.
Qed.

(** getStatus over a range that starts at LPN 0 and reaches
    totalLogicalPages takes the size of the mapping table instead of
    counting: when every mapped LPN is below totalLogicalPages, both give
    the number of mapped LPNs of the range. *)
Theorem getStatus_fast_path (totalLogicalPages : nat) (s : FTL) (lpnEnd : nat)
    (Hkeys : forall l, is_Some (table s !! l) -> (l < totalLogicalPages)%nat)
    (Hend : (totalLogicalPages <= lpnEnd)%nat) :
  getStatus totalLogicalPages s 0 lpnEnd =
    (nFreeBlocks s, length (filter (fun l => is_Some (table s !! l)) (seq 0 lpnEnd))).
Proof.
  unfold getStatus. rewrite (proj2 (Nat.leb_le _ _) Hend). simpl. f_equal.
  apply size_as_filter_seq. intros l Hl. specialize (Hkeys l Hl). lia.
Qed.

(** *** Keys of the refresh table and of the Bloom levels *)

(** Distinct (block, layer) pairs of uint32_t give distinct keys. *)
Theorem refreshKey_injective (b b' l l' : nat)
    (Hb : Z.of_nat b < 2 ^ 32) (Hb' : Z.of_nat b' < 2 ^ 32)
    (Hl : Z.of_nat l < 2 ^ 32) (Hl' : Z.of_nat l' < 2 ^ 32) :
  refreshKey b l = refreshKey b' l' -> b = b' /\ l = l'.
Proof.
  unfold refreshKey, u64. rewrite !Z.shiftl_mul_pow2 by lia.
  change (2 ^ 32) with 4294967296 in *. change (2 ^ 64) with 18446744073709551616.
  rewrite !Z.mod_small by lia. intros H. split; lia.
Qed.

(** setRefreshPeriod keeps in refresh_table the lowest level a key was
    registered at, counts an actual insertion only when that entry
    changes, always adds the key to the Bloom level [rtc], and touches no
    other entry of the table. *)
Theorem setRefreshPeriod_min (st : RefreshState) (b l rtc : nat) :
  refresh_table (setRefreshPeriod st b l rtc) !! refreshKey b l =
    Some (match refresh_table st !! refreshKey b l with
          | None => rtc | Some r => Nat.min r rtc end) /\
  (forall k, k <> refreshKey b l ->
     refresh_table (setRefreshPeriod st b l rtc) !! k = refresh_table st !! k) /\
  insertedAt (bloomFilters (setRefreshPeriod st b l rtc)) rtc =
    cons (refreshKey b l) <$> insertedAt (bloomFilters st) rtc /\
  actualInsert <$> bloomFilters (setRefreshPeriod st b l rtc) !! rtc =
    (fun bf => if match refresh_table st !! refreshKey b l with
                  | None => true | Some r => (rtc <? r)%nat end
               then S (actualInsert bf) else actualInsert bf)
    <$> bloomFilters st !! rtc.
Proof.
  split; [|split; [|split]].
  - unfold setRefreshPeriod; simpl.
    destruct (refresh_table st !! refreshKey b l) as [r|] eqn:Hr; simpl.
    + destruct (rtc <? r)%nat eqn:Hlt; simpl.
      * rewrite lookup_insert_eq. apply Nat.ltb_lt in Hlt. f_equal. lia.
      * rewrite Hr. apply Nat.ltb_ge in Hlt. f_equal. lia.
    + by rewrite lookup_insert_eq.
  - intros k Hk. unfold setRefreshPeriod; simpl.
    destruct (refresh_table st !! refreshKey b l) as [r|]; simpl;
      [destruct (rtc <? r)%nat; simpl|]; try rewrite lookup_insert_ne by congruence; done.
  - rewrite setRefreshPeriod_insertedAt, Nat.eqb_refl. reflexivity.
  - unfold setRefreshPeriod; simpl. unfold bloomInsert.
    rewrite list_lookup_alter, decide_True by done.
    destruct (refresh_table st !! refreshKey b l) as [r|]; simpl;
      [destruct (rtc <? r)%nat; simpl|];
      unfold countInsert; try (rewrite list_lookup_alter, decide_True by done);
      destruct (bloomFilters st !! rtc); reflexivity.
Qed.

(** *** The sweep pattern of refresh_event *)

Lemma selectLevel_unique (n x y : nat) :
  (x <= n)%nat -> (y <= n)%nat ->
  (forall i, (i <= n)%nat -> ((i <= x)%nat <-> (i <= y)%nat)) -> x = y.
Proof.
  intros Hx Hy H. pose proof (H x Hx). pose proof (H y Hy). lia.
Qed.

(** The level refresh_event sweeps depends on the call count modulo
    [2^(n-1)] only: the sweep pattern repeats every [2^(n-1)] firings.
    This holds for every count, including 0 (the value after
    resetStatValues or after the uint64 counter wraps). *)
Theorem refreshTarget_periodic (nbf : nat) (c : Z) :
  refreshTarget nbf (c + 2 ^ Z.of_nat (nbf - 1)) = refreshTarget nbf c.
Proof.
  unfold refreshTarget.
  apply (selectLevel_unique (nbf - 1)).
  - pose proof (selectLevel_le (nbf - 1) 0 (c + 2 ^ Z.of_nat (nbf - 1))). lia.
  - pose proof (selectLevel_le (nbf - 1) 0 c). lia.
  - intros i Hi.
    pose proof (Z.pow_pos_nonneg 2 (Z.of_nat (nbf - 1))) as Hp.
    rewrite (selectLevel_divides (nbf - 1) 0 _ i) by lia.
    rewrite (selectLevel_divides (nbf - 1) 0 c i) by lia.
    assert (Hd : (2 ^ Z.of_nat i | 2 ^ Z.of_nat (nbf - 1))).
    { exists (2 ^ (Z.of_nat (nbf - 1) - Z.of_nat i)).
      rewrite <- Z.pow_add_r by lia. f_equal. lia. }
    split; intros H.
    + apply (Z.divide_add_cancel_r _ (2 ^ Z.of_nat (nbf - 1))); [exact Hd|].
      by rewrite Z.add_comm.
    + apply Z.divide_add_r; [exact H|exact Hd].
Qed.

(** *** The victim list of format *)

Lemma uniqueAdj_cons2 (a b : nat) (l : list nat) :
  uniqueAdj (a :: b :: l) =
  if (a =? b)%nat then uniqueAdj (b :: l) else a :: uniqueAdj (b :: l).
Proof. reflexivity. Qed.

Lemma uniqueAdj_elem (l : list nat) (x : nat) : x ∈ uniqueAdj l <-> x ∈ l.
Proof.
  induction l as [|a l IH]; [done|].
  destruct l as [|b l]; [done|].
  rewrite uniqueAdj_cons2. destruct (a =? b)%nat eqn:Hab.
  - apply Nat.eqb_eq in Hab as ->. rewrite IH. rewrite !elem_of_cons. tauto.
  - rewrite elem_of_cons, IH. symmetry. apply elem_of_cons.
Qed.

Lemma uniqueAdj_sorted (l : list nat) :
  StronglySorted Nat.le l -> StronglySorted Nat.lt (uniqueAdj l).
Proof.
  induction l as [|a l IH]; intros Hs; [constructor|].
  destruct l as [|b l]; [repeat constructor|].
  apply StronglySorted_inv in Hs as [Hs Hf].
  rewrite uniqueAdj_cons2. destruct (a =? b)%nat eqn:Hab; [by apply IH|].
  apply Nat.eqb_neq in Hab. constructor; [by apply IH|].
  apply Forall_forall. intros z Hz. rewrite uniqueAdj_elem in Hz.
  rewrite Forall_forall in Hf.
  apply elem_of_cons in Hz as [->|Hz].
  - pose proof (Hf b (list_elem_of_here _ _)). lia.
  - apply StronglySorted_inv in Hs as [_ Hfb]. rewrite Forall_forall in Hfb.
    pose proof (Hf b (list_elem_of_here _ _)). pose proof (Hfb z Hz). lia.
Qed.

(** The block list format hands to doGarbageCollection, after std::sort
    and std::unique, is strictly increasing and holds exactly the collected
    blocks: no victim is reclaimed twice. *)
Theorem format_victims_sorted (lst : list nat) :
  StronglySorted Nat.lt (uniqueAdj (merge_sort Nat.le lst)) /\
  (forall x, x ∈ uniqueAdj (merge_sort Nat.le lst) <-> x ∈ lst).
Proof.
  split.
  - apply uniqueAdj_sorted, StronglySorted_merge_sort.
    + intros x y z; lia.
    + intros x y; lia.
  - intros x. rewrite uniqueAdj_elem. apply elem_of_Permutation_proper.
    apply merge_sort_Permutation.
Qed.

(** *** The block pool *)

Lemma reachable_strongly_sorted (s : FTL) (r : nat) :
  reachable cfg ext s r -> StronglySorted ecLe (freeBlocks s).
Proof.
  induction 1 as [s H | s r s' d Hr IH Hstep].
  - unfold construct in H. eapply allocateLastFreeBlocks_sorted; [exact H|].
    simpl. apply (sorted_const _ (initialEraseCount cfg)).
    unfold initialFreeBlocks. apply Forall_forall. intros b Hb.
    apply list_elem_of_In, in_map_iff in Hb as (i & <- & _). done.
  - eapply poolStep_sorted; eauto.
Qed.

Lemma reachable_count (s : FTL) (r : nat) :
  reachable cfg ext s r ->
  (nFreeBlocks s + size (blocks s) + r = totalPhysicalBlocks cfg)%nat.
Proof.
  induction 1 as [s H | s r s' d Hr IH Hstep].
  - apply construct_count in H. lia.
  - apply poolStep_count in Hstep. lia.
Qed.

(** getFreeBlock panics with "Index out of range" exactly when [idx] is
    not below pageCountToMaxPerf, and with "No free block left" exactly
    when [idx] is in range and the free counter is 0. *)
Theorem getFreeBlock_panics (s : FTL) (idx : nat) :
  (getFreeBlock cfg s idx = Panic "Index out of range" <->
     (pageCountToMaxPerf cfg <= idx)%nat) /\
  (getFreeBlock cfg s idx = Panic "No free block left" <->
     (idx < pageCountToMaxPerf cfg)%nat /\ nFreeBlocks s = 0%nat).
Proof.
  unfold getFreeBlock.
  destruct (pageCountToMaxPerf cfg <=? idx)%nat eqn:H1.
  - apply Nat.leb_le in H1.
    split; split; intros H; try done; try lia; try (injection H; discriminate).
  - apply Nat.leb_gt in H1. destruct (0 <? nFreeBlocks s)%nat eqn:H2.
    + apply Nat.ltb_lt in H2.
      split; split; intros H; try lia;
        repeat (case_match; try discriminate); try (injection H; discriminate).
    + apply Nat.ltb_ge in H2.
      split; split; intros H; try done; try lia; try (injection H; discriminate).
Qed.

(** getFreeBlock takes the first free block whose index is congruent to
    [idx] modulo pageCountToMaxPerf, or the head of the list when there is
    none; it moves that block from the free list to the in-use map and
    decrements the free counter. *)
Theorem getFreeBlock_selects (s : FTL) (idx : nat) (s' : FTL) (b : nat)
    (H : getFreeBlock cfg s idx = Ok (s', b)) :
  exists i blk, freeBlocks s !! i = Some blk /\ blockIndex blk = b /\
    freeBlocks s' = delete i (freeBlocks s) /\
    blocks s' = <[b := blk]> (blocks s) /\
    nFreeBlocks s' = (nFreeBlocks s - 1)%nat /\
    (((b mod pageCountToMaxPerf cfg)%nat = idx /\
      forall j bj, (j < i)%nat -> freeBlocks s !! j = Some bj ->
        (blockIndex bj mod pageCountToMaxPerf cfg)%nat <> idx) \/
     (i = 0%nat /\ forall bj, bj ∈ freeBlocks s ->
        (blockIndex bj mod pageCountToMaxPerf cfg)%nat <> idx)).
Proof.
  unfold getFreeBlock in H.
  destruct (pageCountToMaxPerf cfg <=? idx)%nat; [discriminate|].
  destruct (0 <? nFreeBlocks s)%nat; [|discriminate].
  destruct (list_find _ (freeBlocks s)) as [[i b0]|] eqn:Hf.
  - apply list_find_Some in Hf as (Hi & Hp & Hbefore).
    rewrite Hi in H. destruct (blocks s !! blockIndex b0); [discriminate|].
    injection H as <- <-. exists i, b0. simpl. repeat split; auto.
    left. split; [exact Hp|]. intros j bj Hj Hbj. exact (Hbefore j bj Hbj Hj).
  - apply list_find_None in Hf.
    destruct (freeBlocks s) as [|b0 fb] eqn:Hfb; [discriminate|].
    simpl in H. destruct (blocks s !! blockIndex b0); [discriminate|].
    injection H as <- <-. exists 0%nat, b0. simpl.
    repeat split; auto. right. split; [done|].
    intros bj Hbj. rewrite Forall_forall in Hf. exact (Hf bj Hbj).
Qed.

Lemma lookup_list_to_map_seq (f : nat -> Block) (a n j : nat) :
  (list_to_map (map (fun i => (i, f i)) (seq a n)) : gmap nat Block) !! j =
  if decide (a <= j < a + n)%nat then Some (f j) else None.
Proof.
  revert a. induction n as [|n IH]; intros a; simpl.
  - rewrite lookup_empty. case_decide; [lia|done].
  - destruct (decide (a = j)) as [->|Hne].
    + rewrite lookup_insert_eq. case_decide; [done|lia].
    + rewrite lookup_insert_ne by done. rewrite IH.
      repeat case_decide; try done; lia.
Qed.


Lemma getFreeBlock_shape (i : nat) :
  (i < pageCountToMaxPerf cfg)%nat -> (i < totalPhysicalBlocks cfg)%nat ->
  getFreeBlock cfg (constructShape cfg i) i = Ok (constructShape cfg (S i), i).
Proof.
  intros Hp Ht. unfold constructShape.
  assert (Hb : <[i := mkBlock i (initialEraseCount cfg) []]>
     (list_to_map (map (fun j => (j, mkBlock j (initialEraseCount cfg) [])) (seq 0 i))
       : gmap nat Block) =
     list_to_map (map (fun j => (j, mkBlock j (initialEraseCount cfg) [])) (seq 0 (S i)))).
  { apply map_eq. intros j.
    rewrite (lookup_list_to_map_seq (fun j => mkBlock j (initialEraseCount cfg) [])).
    destruct (decide (i = j)) as [->|Hne].
    - rewrite lookup_insert_eq. rewrite decide_True by lia. done.
    - rewrite lookup_insert_ne by done.
      rewrite (lookup_list_to_map_seq (fun j => mkBlock j (initialEraseCount cfg) [])).
      repeat case_decide; try done; lia. }
  rewrite <- Hb. clear Hb.
  destruct (totalPhysicalBlocks cfg - i)%nat as [|m] eqn:Hm; [lia|].
  assert (Hm' : (totalPhysicalBlocks cfg - S i)%nat = m) by lia. rewrite Hm'.
  unfold getFreeBlock. cbn [freeBlocks nFreeBlocks blocks table].
  rewrite (proj2 (Nat.leb_gt _ _) Hp).
  cbn [seq map list_find Nat.ltb Nat.leb].
  rewrite decide_True by (cbn [blockIndex]; apply Nat.mod_small; lia).
  cbn [fmap option_fmap option_map lookup list_lookup blockIndex delete list_delete].
  rewrite (lookup_list_to_map_seq (fun j => mkBlock j (initialEraseCount cfg) [])).
  rewrite decide_False by lia.
  do 3 f_equal. lia.
Qed.
Lemma allocate_shape (k i : nat) :
  (i <= totalPhysicalBlocks cfg)%nat -> (i + k <= pageCountToMaxPerf cfg)%nat ->
  allocateLastFreeBlocks cfg i k (constructShape cfg i) =
  if (i + k <=? totalPhysicalBlocks cfg)%nat then Ok (constructShape cfg (i + k))
  else Panic "No free block left".
Proof.
  revert i. induction k as [|k IH]; intros i Hi Hk.
  - rewrite Nat.add_0_r, (proj2 (Nat.leb_le _ _) Hi). done.
  - cbn [allocateLastFreeBlocks].
    destruct (decide (i < totalPhysicalBlocks cfg)%nat) as [Hlt|Hge].
    + rewrite getFreeBlock_shape by lia. cbn [mbind outcome_bind].
      rewrite IH by lia. replace (S i + k)%nat with (i + S k)%nat by lia. done.
    + assert (i = totalPhysicalBlocks cfg) as -> by lia.
      unfold getFreeBlock at 1. unfold constructShape at 1. cbn [nFreeBlocks].
      rewrite (proj2 (Nat.leb_gt _ _)) by lia. rewrite Nat.sub_diag.
      rewrite (proj2 (Nat.leb_gt _ _)) by lia. done.
Qed.
(** The constructor either panics with "No free block left" (when
    [pageCountToMaxPerf] exceeds the number of blocks) or leaves blocks
    [0..pageCountToMaxPerf-1] in use, the other blocks free in index order,
    [nFreeBlocks] equal to their number, and an empty mapping table. *)
Theorem construct_result :
  construct cfg =
  if (pageCountToMaxPerf cfg <=? totalPhysicalBlocks cfg)%nat
  then Ok (constructShape cfg (pageCountToMaxPerf cfg))
  else Panic "No free block left".
Proof.
  unfold construct.
  replace (mkFTL (initialFreeBlocks cfg) (totalPhysicalBlocks cfg) ∅ ∅) with (constructShape cfg 0).
  - apply allocate_shape; lia.
  - unfold constructShape, initialFreeBlocks. rewrite Nat.sub_0_r. done.
Qed.

(** In a reachable state, an erased block that stays below the bad-block
    threshold is placed after every free block whose erase count is at
    most its new count and before every free block with a larger count. *)
Theorem eraseInternal_placement (s : FTL) (r : nat) (req : PALRequest) (tick : Z)
  (s' : FTL) (t' : Z) (blk : Block)
  (Hr : reachable cfg ext s r)
  (Hblk : blocks s !! reqBlockIndex req = Some blk)
  (Hthr : (S (eraseCount blk) < badBlockThreshold cfg)%nat)
  (H : eraseInternal cfg ext s req tick = Ok (s', t')) :
  exists pos, freeBlocks s' = emplaceAt (freeBlocks s) pos (blockErase blk) /\
    (forall b, b ∈ take pos (freeBlocks s) -> (eraseCount b <= S (eraseCount blk))%nat) /\
    (forall b, b ∈ drop pos (freeBlocks s) -> (S (eraseCount blk) < eraseCount b)%nat).
Proof.
  apply eraseInternal_Ok in H as (blk0 & Hb0 & _ & _ & _ & Hcase).
  rewrite Hblk in Hb0. injection Hb0 as <-.
  destruct Hcase as [(_ & Hne & Hf & _) | (Ht & _)]; [|lia].
  set (fb := freeBlocks s) in *. set (x := S (eraseCount blk)) in *.
  assert (Hs : StronglySorted ecLe fb) by (eapply reachable_strongly_sorted; eauto).
  destruct (reverseSearch_spec fb x (length fb)) as (H1 & H2 & H3).
  { destruct fb; simpl; [done|lia]. }
  set (q := reverseSearch fb x (length fb)) in *.
  exists q. split; [exact Hf|]. split.
  - intros a Ha. apply elem_of_take in Ha as (i & Hi & Hiq).
    destruct (fb !! (q - 1)%nat) as [c|] eqn:Hc.
    + assert (eraseCount c <= x)%nat by (apply H3; [lia|done]).
      destruct (decide (i = q - 1)%nat) as [->|Hne'].
      * rewrite Hi in Hc. inversion Hc; subst. lia.
      * assert (ecLe a c) by (eapply sorted_lookup; [exact Hs|exact Hi|exact Hc|lia]).
        unfold ecLe in *. lia.
    + apply lookup_ge_None in Hc. apply lookup_lt_Some in Hi. lia.
  - intros a Ha. apply list_elem_of_lookup in Ha as (i & Hi).
    rewrite lookup_drop in Hi.
    apply (H2 (q + i)%nat a); [|done]. apply lookup_lt_Some in Hi. lia.
Qed.

Lemma invalidateSlots_keys (bl : gmap nat Block) (ml : list (nat * nat))
    (idx k : nat) (acc : list nat) (bl' : gmap nat Block) (acc' : list nat) :
  invalidateSlots bl ml idx k acc = Ok (bl', acc') ->
  (forall b, is_Some (bl' !! b) <-> is_Some (bl !! b)) /\
  exists added, acc' = acc ++ added /\ forall b, b ∈ added -> is_Some (bl !! b).
Proof.
  revert bl idx acc. induction k as [|k IH]; intros bl idx acc H; simpl in H.
  - injection H as <- <-. split; [done|]. exists []. rewrite app_nil_r.
    split; [done|]. intros b Hb. by apply elem_of_nil in Hb.
  - destruct (ml !! idx) as [[b page]|]; [|discriminate].
    destruct (bl !! b) as [blk|] eqn:Hb; [|discriminate].
    apply IH in H as (Hk & added & -> & Hadd).
    assert (Hins : forall c, is_Some (<[b:=blockInvalidate blk page idx]> bl !! c) <->
                              is_Some (bl !! c)).
    { intros c. destruct (decide (b = c)) as [->|Hne].
      - rewrite lookup_insert_eq, Hb. split; eauto.
      - by rewrite lookup_insert_ne. }
    split.
    + intros c. by rewrite Hk, Hins.
    + exists (b :: added). rewrite <- app_assoc. split; [done|].
      intros c Hc. apply elem_of_cons in Hc as [->|Hc]; [eauto|].
      apply Hins, Hadd, Hc.
Qed.

(** trim leaves the free list and its counter alone, keeps the set of
    in-use block indices, and removes exactly the mapping of the trimmed
    LPN from the table. *)
Theorem trim_pool (s s' : FTL) (req : Request) (tick t : Z)
  (H : trim cfg ext s req tick = Ok (s', t)) :
  freeBlocks s' = freeBlocks s /\ nFreeBlocks s' = nFreeBlocks s /\
  (forall b, is_Some (blocks s' !! b) <-> is_Some (blocks s !! b)) /\
  table s' = delete (lpn req) (table s).
Proof.
  unfold trim, trimInternal in H. unfold_bind.
  destruct (table s !! lpn req) as [ml|] eqn:Ht.
  - destruct (invalidateSlots (blocks s) ml 0 (bitsetSize cfg) []) as [[bl acc]| |] eqn:Hi;
      try discriminate.
    injection H as <- _. apply invalidateSlots_keys in Hi as (Hk & _).
    simpl. auto.
  - injection H as <- _. repeat split; auto. by rewrite delete_id.
Qed.

Lemma decide_iff_eq {A : Type} (P Q : Prop) `{Decision P} `{Decision Q} (x y : A) :
  (P <-> Q) -> (if decide P then x else y) = (if decide Q then x else y).
Proof. intros HPQ. do 2 case_decide; tauto. Qed.

Lemma formatEntries_Ok (rng : LPNRange) (entries : list (nat * list (nat * nat)))
    (bl : gmap nat Block) (tbl : gmap nat (list (nat * nat))) (acc : list nat)
    bl' tbl' acc' :
  formatEntries cfg rng entries bl tbl acc = Ok (bl', tbl', acc') ->
  (forall l, tbl' !! l =
     if decide (inLPNRange rng l = true /\ l ∈ map fst entries)
     then None else tbl !! l) /\
  (forall b, is_Some (bl' !! b) <-> is_Some (bl !! b)) /\
  (forall b, b ∈ acc' -> b ∈ acc \/ is_Some (bl !! b)).
Proof.
  revert bl tbl acc. induction entries as [|[l ml] rest IH]; intros bl tbl acc H;
    simpl in H.
  - injection H as <- <- <-. split; [|split; [done|auto]].
    intros l. rewrite decide_False; [done|]. intros [_ Hx]. by apply elem_of_nil in Hx.
  - destruct (inLPNRange rng l) eqn:Hr.
    + unfold_bind.
      destruct (invalidateSlots bl ml 0 (bitsetSize cfg) acc) as [[bl1 acc1]| |] eqn:Hi;
        try discriminate.
      apply IH in H as (Ht & Hk & Ha).
      apply invalidateSlots_keys in Hi as (Hk1 & added & -> & Hadd).
      split; [|split].
      * intros l'. rewrite Ht. simpl.
        destruct (decide (l = l')) as [<-|Hne].
        -- rewrite lookup_delete_eq.
           rewrite (decide_True (P := inLPNRange rng l = true /\ l ∈ l :: map fst rest))
             by (split; [done|left]).
           by case_decide.
        -- rewrite lookup_delete_ne by done. apply decide_iff_eq.
           rewrite elem_of_cons. intuition congruence.
      * intros b. by rewrite Hk, Hk1.
      * intros b Hb. apply Ha in Hb as [Hb|Hb].
        -- apply elem_of_app in Hb as [Hb|Hb]; [by left|right; by apply Hadd].
        -- right. by apply Hk1.
    + apply IH in H as (Ht & Hk & Ha). split; [|done].
      intros l'. rewrite Ht. simpl. apply decide_iff_eq.
      rewrite elem_of_cons. intuition (subst; congruence).
Qed.

(** The table walk of format (lines 417-441), which runs before the
    garbage collection: when it succeeds, every mapped LPN that format's
    uint64 range test accepts is unmapped, every other LPN keeps its
    mapping, the set of in-use blocks is unchanged, and every block index
    it collects for the collector is in use. *)
Theorem format_walk (s : FTL) (rng : LPNRange) (bl : gmap nat Block)
  (tbl : gmap nat (list (nat * nat))) (lst : list nat)
  (H : formatEntries cfg rng (map_to_list (table s)) (blocks s) (table s) [] =
         Ok (bl, tbl, lst)) :
  (forall l, tbl !! l = if inLPNRange rng l then None else table s !! l) /\
  (forall b, is_Some (bl !! b) <-> is_Some (blocks s !! b)) /\
  (forall b, b ∈ lst -> is_Some (blocks s !! b)).
Proof.
  apply formatEntries_Ok in H as (Ht & Hk & Ha).
  split; [|split; [done|]].
  - intros l. rewrite Ht. destruct (inLPNRange rng l) eqn:Hr.
    + destruct (table s !! l) as [ml|] eqn:Hl.
      * rewrite decide_True; [done|]. split; [done|].
        apply list_elem_of_fmap. exists (l, ml). split; [done|].
        by apply elem_of_map_to_list.
      * by case_decide.
    + rewrite decide_False; [done|]. intros [? _]. discriminate.
  - intros b Hb. apply Ha in Hb as [Hb|Hb]; [by apply elem_of_nil in Hb|done].
Qed.

Lemma readSlots_panic_iff (bl : gmap nat Block) (ml : list (nat * nat)) (flag : Bitset)
    (idx k : nat) (tick fa : Z) :
  (idx + k <= length ml)%nat ->
  (readSlots cfg ext bl ml flag idx k tick fa = Panic "Block is not in use" <->
   exists j b p, (idx <= j < idx + k)%nat /\
     (nth j flag false || negb (bRandomTweak cfg)) = true /\
     ml !! j = Some (b, p) /\
     (b < totalPhysicalBlocks cfg)%nat /\ (p < pagesInBlock cfg)%nat /\
     bl !! b = None).
Proof.
  revert idx fa. induction k as [|k IH]; intros idx fa Hlen; cbn [readSlots].
  - split; [discriminate|]. intros (j & _ & _ & Hj & _). lia.
  - destruct (nth idx flag false || negb (bRandomTweak cfg)) eqn:Hsel.
    + destruct (ml !! idx) as [[b p]|] eqn:Hi.
      2: { apply lookup_ge_None in Hi. lia. }
      destruct ((b <? totalPhysicalBlocks cfg)%nat && (p <? pagesInBlock cfg)%nat) eqn:Hr.
      * apply andb_true_iff in Hr as [Hb Hp]. apply Nat.ltb_lt in Hb, Hp.
        destruct (bl !! b) as [blk|] eqn:Hbl.
        -- rewrite IH by lia. split.
           ++ intros (j & b' & p' & Hj & Hrest). exists j, b', p'. split; [lia|done].
           ++ intros (j & b' & p' & Hj & Hs & Hm & Hb' & Hp' & Hn).
              destruct (decide (j = idx)) as [->|Hne].
              ** rewrite Hi in Hm. injection Hm as <- <-. congruence.
              ** exists j, b', p'. split; [lia|done].
        -- split; [|done]. intros _. exists idx, b, p. repeat split; auto; lia.
      * rewrite IH by lia. split.
        -- intros (j & b' & p' & Hj & Hrest). exists j, b', p'. split; [lia|done].
        -- intros (j & b' & p' & Hj & Hs & Hm & Hb' & Hp' & Hn).
           destruct (decide (j = idx)) as [->|Hne].
           ++ rewrite Hi in Hm. injection Hm as <- <-.
              apply Nat.ltb_lt in Hb', Hp'. rewrite Hb', Hp' in Hr. discriminate.
           ++ exists j, b', p'. split; [lia|done].
    + rewrite IH by lia. split.
      * intros (j & b' & p' & Hj & Hrest). exists j, b', p'. split; [lia|done].
      * intros (j & b' & p' & Hj & Hs & Hrest).
        destruct (decide (j = idx)) as [->|Hne]; [congruence|].
        exists j, b', p'. split; [lia|done].
Qed.

(** When the mapping list of the LPN has an entry for every slot,
    readInternal panics with "Block is not in use" exactly when a slot it
    reads points inside the device to a block that is not in use. *)
Theorem readInternal_panics_iff (s : FTL) (req : Request) (tick : Z) (ml : list (nat * nat))
  (Hml : table s !! lpn req = Some ml) (Hlen : (bitsetSize cfg <= length ml)%nat) :
  readInternal cfg ext s req tick = Panic "Block is not in use" <->
  exists j b p, (j < bitsetSize cfg)%nat /\
    (nth j (ioFlag req) false || negb (bRandomTweak cfg)) = true /\
    ml !! j = Some (b, p) /\
    (b < totalPhysicalBlocks cfg)%nat /\ (p < pagesInBlock cfg)%nat /\
    blocks s !! b = None.
Proof.
  unfold readInternal. rewrite Hml. unfold_bind.
  match goal with |- context [readSlots ?c ?e ?bl ?m ?f ?i ?k ?t ?fa] =>
    pose proof (readSlots_panic_iff bl m f i k t fa ltac:(lia)) as Hiff;
    destruct (readSlots c e bl m f i k t fa) eqn:Hrs end.
  - split; [discriminate|]. intros (j & b & p & Hj & Hrest).
    assert (Ok a = Panic "Block is not in use") as Hc
      by (apply Hiff; exists j, b, p; split; [lia|done]). discriminate.
  - split.
    + intros Hx. injection Hx as ->. destruct Hiff as [Hiff _].
      destruct (Hiff eq_refl) as (j & b & p & Hj & Hrest). exists j, b, p. split; [lia|done].
    + intros (j & b & p & Hj & Hrest).
      assert (Hc : (Panic msg : outcome Z) = Panic "Block is not in use")
        by (apply Hiff; exists j, b, p; split; [lia|done]).
      injection Hc as ->. done.
  - split; [discriminate|]. intros (j & b & p & Hj & Hrest).
    assert (Undefined = Panic "Block is not in use") as Hc
      by (apply Hiff; exists j, b, p; split; [lia|done]). discriminate.
Qed.

Lemma readSlots_skip (bl : gmap nat Block) (ml : list (nat * nat)) (flag : Bitset)
    (idx k : nat) (tick fa : Z) :
  (idx + k <= length ml)%nat ->
  (forall j b p, (idx <= j < idx + k)%nat ->
     (nth j flag false || negb (bRandomTweak cfg)) = true ->
     ml !! j = Some (b, p) ->
     ~ ((b < totalPhysicalBlocks cfg)%nat /\ (p < pagesInBlock cfg)%nat)) ->
  readSlots cfg ext bl ml flag idx k tick fa = Ok fa.
Proof.
  revert idx. induction k as [|k IH]; intros idx Hlen Hskip; cbn [readSlots]; [done|].
  assert (IH' : readSlots cfg ext bl ml flag (S idx) k tick fa = Ok fa).
  { apply IH; [lia|]. intros j b p Hj. apply Hskip. lia. }
  destruct (nth idx flag false || negb (bRandomTweak cfg)) eqn:Hsel; [|exact IH'].
  destruct (ml !! idx) as [[b p]|] eqn:Hi.
  2: { apply lookup_ge_None in Hi. lia. }
  destruct ((b <? totalPhysicalBlocks cfg)%nat && (p <? pagesInBlock cfg)%nat) eqn:Hr;
    [|exact IH'].
  exfalso. apply andb_true_iff in Hr as [Hb Hp]. apply Nat.ltb_lt in Hb, Hp.
  apply (Hskip idx b p); [lia|done|done|done].
Qed.

(** When every slot readInternal would read holds a mapping outside the
    device (the sentinel of an unwritten slot), no PAL read is issued and
    the DRAM access time is dropped: the result is the tick before the
    call plus the CPU latency of READ_INTERNAL. *)
Theorem readInternal_skips_sentinel (s : FTL) (req : Request) (tick : Z) (ml : list (nat * nat))
  (Hml : table s !! lpn req = Some ml) (Hlen : (bitsetSize cfg <= length ml)%nat)
  (Hskip : forall j b p, (j < bitsetSize cfg)%nat ->
     (nth j (ioFlag req) false || negb (bRandomTweak cfg)) = true ->
     ml !! j = Some (b, p) ->
     ~ ((b < totalPhysicalBlocks cfg)%nat /\ (p < pagesInBlock cfg)%nat)) :
  readInternal cfg ext s req tick = Ok (s, u64 (tick + cpu ext READ_INTERNAL)).
Proof.
  unfold readInternal. rewrite Hml. unfold_bind.
  rewrite readSlots_skip; [done|lia|]. intros j b p Hj. apply Hskip. lia.
Qed.

(** Starting from a valid index, the index of getLastFreeBlock stays below
    [pageCountToMaxPerf] (so [lastFreeBlock.at] never throws); without the
    random tweak, after [n] calls it has advanced by [n] modulo
    [pageCountToMaxPerf]. *)
Theorem lastFreeBlock_round_robin (idx : nat) (m : Bitset) (ioms : list Bitset)
  (Hidx : (idx < pageCountToMaxPerf cfg)%nat) :
  let r := fold_left (fun st iom => advanceLastFreeBlock cfg st.1 st.2 iom) ioms (idx, m) in
  (r.1 < pageCountToMaxPerf cfg)%nat /\
  (bRandomTweak cfg = false -> r.1 = ((idx + length ioms) mod pageCountToMaxPerf cfg)%nat).
Proof.
  cbv zeta. revert idx m Hidx. induction ioms as [|iom ioms IH]; intros idx m Hidx; simpl.
  - split; [done|]. intros _. rewrite Nat.add_0_r, Nat.mod_small; done.
  - assert (Hstep : ((advanceLastFreeBlock cfg idx m iom).1 < pageCountToMaxPerf cfg)%nat /\
                    (bRandomTweak cfg = false ->
                     (advanceLastFreeBlock cfg idx m iom).1 =
                     ((idx + 1) mod pageCountToMaxPerf cfg)%nat)).
    { unfold advanceLastFreeBlock.
      destruct (negb (bRandomTweak cfg) || _) eqn:Hc; cbn [fst].
      - destruct (S idx =? pageCountToMaxPerf cfg)%nat eqn:He.
        + apply Nat.eqb_eq in He. split; [lia|]. intros _.
          rewrite Nat.add_1_r, He, Nat.Div0.mod_same; lia.
        + apply Nat.eqb_neq in He. split; [lia|]. intros _.
          rewrite Nat.add_1_r, Nat.mod_small; lia.
      - split; [done|]. intros Ht. rewrite Ht in Hc. discriminate. }
    destruct (advanceLastFreeBlock cfg idx m iom) as [idx' m'] eqn:Ha. simpl in Hstep.
    destruct Hstep as [Hlt Heq].
    destruct (IH idx' m' Hlt) as [H1 H2]. split; [done|].
    intros Ht. rewrite H2 by done. rewrite Heq by done.
    rewrite Nat.Div0.add_mod_idemp_l. f_equal. lia.
Qed.

Lemma wearStep_u64 (x y : Z) (e : nat) :
  wearStep (u64 x, u64 y) e = (u64 (x + Z.of_nat e), u64 (y + Z.of_nat (e * e))).
Proof.
  unfold wearStep, u64. simpl. rewrite Nat2Z.inj_mul. f_equal.
  - apply Zplus_mod_idemp_l.
  - rewrite Zplus_mod_idemp_l, Zplus_mod_idemp_r. done.
Qed.

Lemma wearFold_u64 (l : list (nat * Block)) (x y : Z) :
  fold_left (fun acc kb => wearStep acc (eraseCount kb.2)) l (u64 x, u64 y) =
  (u64 (x + Z.of_nat (sum_list_with (fun kb => eraseCount kb.2) l)),
   u64 (y + Z.of_nat (sum_list_with (fun kb => eraseCount kb.2 * eraseCount kb.2)%nat l))).
Proof.
  revert x y. induction l as [|kb l IH]; intros x y; simpl.
  - rewrite !Z.add_0_r. done.
  - rewrite wearStep_u64, IH. rewrite !Nat2Z.inj_add, !Z.add_assoc. done.
Qed.

Lemma wearFreeScan_u64 (l : list Block) (x y : Z) :
  StronglySorted (flip ecLe) l ->
  wearFreeScan l (u64 x, u64 y) =
  (u64 (x + Z.of_nat (sum_list_with eraseCount l)),
   u64 (y + Z.of_nat (sum_list_with (fun b => eraseCount b * eraseCount b)%nat l))).
Proof.
  revert x y. induction l as [|b l IH]; intros x y Hs; simpl.
  - rewrite !Z.add_0_r. done.
  - apply StronglySorted_inv in Hs as [Hs Hall].
    destruct (eraseCount b =? 0)%nat eqn:Hb.
    + apply Nat.eqb_eq in Hb.
      assert (Hz : forall c, c ∈ l -> eraseCount c = 0%nat).
      { intros c Hc. rewrite Forall_forall in Hall.
        specialize (Hall c Hc). unfold flip, ecLe in Hall. lia. }
      assert (H1 : sum_list_with eraseCount l = 0%nat).
      { clear -Hz. induction l as [|c l IHl]; [done|]. simpl.
        rewrite (Hz c (list_elem_of_here _ _)), IHl; [done|]. intros d Hd. apply Hz. by right. }
      assert (H2 : sum_list_with (fun b => eraseCount b * eraseCount b)%nat l = 0%nat).
      { clear -Hz. induction l as [|c l IHl]; [done|]. simpl.
        rewrite (Hz c (list_elem_of_here _ _)), IHl; [done|]. intros d Hd. apply Hz. by right. }
      rewrite Hb, H1, H2. simpl. rewrite !Z.add_0_r. done.
    + rewrite wearStep_u64, IH by done. rewrite !Nat2Z.inj_add, !Z.add_assoc. done.
Qed.

Lemma StronglySorted_rev {A} (R : A -> A -> Prop) (l : list A) :
  StronglySorted R l -> StronglySorted (flip R) (rev l).
Proof.
  induction 1 as [|a l Hs IH Hall]; simpl; [constructor|].
  apply StronglySorted_app_2; [|done|repeat constructor].
  intros x y Hx Hy. apply list_elem_of_singleton in Hy as ->.
  rewrite list_elem_of_In, <- in_rev, <- list_elem_of_In in Hx.
  rewrite Forall_forall in Hall. unfold flip. by apply Hall.
Qed.

Lemma sum_list_with_rev {A} (f : A -> nat) (l : list A) :
  sum_list_with f (rev l) = sum_list_with f l.
Proof.
  induction l as [|a l IH]; simpl; [done|].
  rewrite sum_list_with_app, IH. simpl. lia.
Qed.

Lemma sum_list_with_map_snd {K A} (f : A -> nat) (l : list (K * A)) :
  sum_list_with f (map snd l) = sum_list_with (fun kb => f kb.2) l.
Proof. induction l as [|kb l IH]; simpl; [done|]. by rewrite IH. Qed.

(** In a reachable state, the early break of the free-list scan of
    calculateWearLeveling loses nothing: the two sums are the sums, modulo
    2^64, of the erase counts and of their squares over every in-use and
    every free block. *)
Theorem wearLeveling_counts_all (s : FTL) (r : nat) (Hr : reachable cfg ext s r) :
  let all := map snd (map_to_list (blocks s)) ++ freeBlocks s in
  wearLevelingSums s =
  (u64 (Z.of_nat (sum_list_with eraseCount all)),
   u64 (Z.of_nat (sum_list_with (fun b => eraseCount b * eraseCount b)%nat all))).
Proof.
  cbv zeta. unfold wearLevelingSums.
  change (0, 0) with (u64 0, u64 0). rewrite wearFold_u64.
  rewrite wearFreeScan_u64.
  2: { apply StronglySorted_rev. eapply reachable_strongly_sorted; eauto. }
  rewrite !sum_list_with_app, !sum_list_with_map_snd, !sum_list_with_rev.
  rewrite !Nat2Z.inj_add. done.
Qed.

End Proofs.

Lemma demoState0_reachable : reachable cfgDemo extDemo demoState0 0.
Proof. apply reach_init. vm_compute. reflexivity. Qed.

Lemma blockCount_reachable_witness :
  reachable cfgDemo extDemo demoState0 0 /\
  (nFreeBlocks demoState0 + size (blocks demoState0) + 0 =
   totalPhysicalBlocks cfgDemo)%nat.
Proof.
  split; [exact demoState0_reachable|].
  apply (blockCount_reachable cfgDemo extDemo demoState0 0 demoState0_reachable).
Defined.

(** C3 as stated fails: after the first erase retires the only block,
    no block is free or in use. *)
Lemma blockCount_cex :
  exists s, reachable cfgBadBlock extDemo s 1 /\
    (nFreeBlocks s + size (blocks s) <> totalPhysicalBlocks cfgBadBlock)%nat.
Proof.
  set (s0 := mkFTL [] 0 {[0%nat := mkBlock 0 0 []]} ∅).
  exists (mkFTL [] 0 ∅ ∅). split.
  - change 1%nat with
      (0 + retiredBy cfgBadBlock s0 (reqBlockIndex (mkPALRequest 0 0 [])))%nat.
    apply reach_step with s0.
    + apply reach_init. vm_compute. reflexivity.
    + eapply (step_eraseInternal _ _ _ _ 0). vm_compute. reflexivity.
  - vm_compute. intros H. discriminate.
Qed.

Lemma freeBlocks_sorted_witness :
  reachable cfgDemo extDemo demoState0 0 /\ Sorted ecLe (freeBlocks demoState0).
Proof.
  split; [exact demoState0_reachable|].
  apply (freeBlocks_sorted cfgDemo extDemo demoState0 0 demoState0_reachable).
Defined.



Lemma trim_idempotent_witness :
  trim cfgDemo extDemo demoStateMapped (mkRequest 5 [true]) 0 =
    Ok (mkFTL [mkBlock 1 0 []; mkBlock 2 0 []; mkBlock 3 0 []] 3
              {[0%nat := mkBlock 0 0 []]} ∅, 15) /\
  (forall tick',
     trim cfgDemo extDemo
       (mkFTL [mkBlock 1 0 []; mkBlock 2 0 []; mkBlock 3 0 []] 3
              {[0%nat := mkBlock 0 0 []]} ∅) (mkRequest 5 [true]) tick' =
     Ok (mkFTL [mkBlock 1 0 []; mkBlock 2 0 []; mkBlock 3 0 []] 3
               {[0%nat := mkBlock 0 0 []]} ∅, u64 (tick' + cpu extDemo TRIM))).
Proof.
  assert (H : trim cfgDemo extDemo demoStateMapped (mkRequest 5 [true]) 0 =
    Ok (mkFTL [mkBlock 1 0 []; mkBlock 2 0 []; mkBlock 3 0 []] 3
              {[0%nat := mkBlock 0 0 []]} ∅, 15)) by (vm_compute; reflexivity).
  split; [exact H|].
  exact (trim_idempotent cfgDemo extDemo demoStateMapped _ (mkRequest 5 [true]) 0 15 H).
Defined.

Lemma empty_request_noop_witness :
  bitCount (ioFlag (mkRequest 0 [false; false])) = 0%nat /\
  read extDemo (fun _ _ _ => Panic "unreachable") demoState0 (mkRequest 0 [false; false]) 0 =
    Ok (demoState0, u64 (0 + cpu extDemo READ)) /\
  write extDemo (fun _ _ _ => Panic "unreachable") demoState0 (mkRequest 0 [false; false]) 0 =
    Ok (demoState0, u64 (0 + cpu extDemo WRITE)).
Proof.
  assert (H : bitCount (ioFlag (mkRequest 0 [false; false])) = 0%nat) by reflexivity.
  split; [exact H|].
  exact (empty_request_noop extDemo (fun _ _ _ => Panic "unreachable")
           (fun _ _ _ => Panic "unreachable") demoState0 (mkRequest 0 [false; false]) 0 H).
Defined.

Lemma demoStateSentinel_reachable : reachable cfgTweak extDemo demoStateSentinel 0.
Proof.
  assert (H0 : reachable cfgTweak extDemo demoState0 0)
    by (apply reach_init; vm_compute; reflexivity).
  assert (H1 : reachable cfgTweak extDemo
                 (setBlocks demoState0 (<[0%nat := mkBlock 0 0 [(0, 0)%nat]]> (blocks demoState0)))
                 (0 + 0)).
  { eapply reach_step; [exact H0|].
    apply (step_blockUpdate cfgTweak extDemo demoState0 0 (mkBlock 0 0 [])). reflexivity. }
  pose proof (reach_step _ _ _ _ _ _ H1
                (step_tableUpdate cfgTweak extDemo _ {[5%nat := [(0, 0); (4, 2)]%nat]})) as H2.
  assert (E : setTable (setBlocks demoState0 (<[0%nat := mkBlock 0 0 [(0, 0)%nat]]> (blocks demoState0)))
                {[5%nat := [(0, 0); (4, 2)]%nat]} = demoStateSentinel)
    by (vm_compute; reflexivity).
  rewrite E in H2. exact H2.
Qed.

Lemma sentinel_slot_panics_witness :
  reachable cfgTweak extDemo demoStateSentinel 0 /\
  (forall l ml', table demoStateSentinel !! l = Some ml' -> length ml' = bitsetSize cfgTweak) /\
  table demoStateSentinel !! lpn (mkRequest 5 [true; false]) = Some [(0, 0); (4, 2)]%nat /\
  (1 < bitsetSize cfgTweak)%nat /\
  [(0, 0); (4, 2)]%nat !! 1%nat = Some (totalPhysicalBlocks cfgTweak, pagesInBlock cfgTweak) /\
  trim cfgTweak extDemo demoStateSentinel (mkRequest 5 [true; false]) 0 =
    Panic "Block is not in use" /\
  (forall gc rng, inLPNRange rng (lpn (mkRequest 5 [true; false])) = true ->
     format cfgTweak extDemo gc demoStateSentinel rng 0 = Panic "Block is not in use").
Proof.
  assert (Hwf : forall l ml', table demoStateSentinel !! l = Some ml' ->
                  length ml' = bitsetSize cfgTweak).
  { intros l ml' H. unfold demoStateSentinel in H; simpl in H.
    apply lookup_singleton_Some in H as [_ <-]. reflexivity. }
  assert (Hlpn : table demoStateSentinel !! lpn (mkRequest 5 [true; false]) =
                 Some [(0, 0); (4, 2)]%nat) by reflexivity.
  assert (Hidx : (1 < bitsetSize cfgTweak)%nat) by (vm_compute; lia).
  assert (Hsent : [(0, 0); (4, 2)]%nat !! 1%nat =
                  Some (totalPhysicalBlocks cfgTweak, pagesInBlock cfgTweak)) by reflexivity.
  split; [exact demoStateSentinel_reachable|].
  split; [exact Hwf|]. split; [exact Hlpn|]. split; [exact Hidx|]. split; [exact Hsent|].
  exact (sentinel_slot_panics cfgTweak extDemo demoStateSentinel 0 (mkRequest 5 [true; false]) 0
           _ 1 demoStateSentinel_reachable Hwf Hlpn Hidx Hsent).
Defined.

Lemma gc_io_schedule_witness :
  gcCollect cfgDemo extDemo [0%nat] (blocks demoStateMapped) 0 [] [] =
    Ok ({[0%nat := mkBlock 0 0 []]}, 1, [mkPALRequest 0 0 [true]],
        [mkPALRequest 0 0 [true]]) /\
  doGarbageCollection cfgDemo extDemo demoStateMapped [0%nat] [] 0 =
    Ok (mkFTL [mkBlock 1 0 []; mkBlock 2 0 []; mkBlock 3 0 []; mkBlock 0 1 []] 4
              ∅ {[5%nat := [(0, 0)%nat]]}, 125,
        [mkIoEvent IoRead 1 11; mkIoEvent IoErase 11 118]) /\
  (let rd := map (fun r => mkIoEvent IoRead 1 (palRead extDemo r 1))
                 [mkPALRequest 0 0 [true]] in
   let R := latestFinish 0 rd in
   let wr := map (fun w => mkIoEvent IoWrite R (palWrite extDemo w R)) [] in
   (exists er, [mkIoEvent IoRead 1 11; mkIoEvent IoErase 11 118] = rd ++ wr ++ er /\
      length er = length [mkPALRequest 0 0 [true]] /\
      Forall (fun e => evKind e = IoErase /\ evBegin e = R) er /\
      125 = u64 (Z.max (latestFinish 0 wr) (latestFinish 0 er)
                 + cpu extDemo DO_GARBAGE_COLLECTION)) /\
   doGarbageCollection cfgDemo extDemo demoStateMapped [] [] 0 =
     Ok (demoStateMapped, 0, [])).
Proof.
  assert (Hcol : gcCollect cfgDemo extDemo [0%nat] (blocks demoStateMapped) 0 [] [] =
    Ok ({[0%nat := mkBlock 0 0 []]}, 1, [mkPALRequest 0 0 [true]],
        [mkPALRequest 0 0 [true]])) by (vm_compute; reflexivity).
  assert (Hgc : doGarbageCollection cfgDemo extDemo demoStateMapped [0%nat] [] 0 =
    Ok (mkFTL [mkBlock 1 0 []; mkBlock 2 0 []; mkBlock 3 0 []; mkBlock 0 1 []] 4
              ∅ {[5%nat := [(0, 0)%nat]]}, 125,
        [mkIoEvent IoRead 1 11; mkIoEvent IoErase 11 118])) by (vm_compute; reflexivity).
  split; [exact Hcol|]. split; [exact Hgc|].
  exact (gc_io_schedule cfgDemo extDemo demoStateMapped _ 0 [] [] 0 125 1 _ _ _ _ Hcol Hgc).
Defined.

(** C6 as stated fails: with one valid page in the victim, the DRAM read
    of its mapping entry moves the tick from 0 to 1 before the PAL read is
    issued, so the read does not begin at the pre-GC tick 0. *)
Lemma gc_read_begin_cex :
  exists s' t tr e,
    doGarbageCollection cfgDemo extDemo demoStateMapped [0%nat] [] 0 = Ok (s', t, tr) /\
    In e tr /\ evKind e = IoRead /\ evBegin e <> 0.
Proof.
  exists (mkFTL [mkBlock 1 0 []; mkBlock 2 0 []; mkBlock 3 0 []; mkBlock 0 1 []] 4
                ∅ {[5%nat := [(0, 0)%nat]]}), 125,
         [mkIoEvent IoRead 1 11; mkIoEvent IoErase 11 118], (mkIoEvent IoRead 1 11).
  split; [vm_compute; reflexivity|].
  split; [left; reflexivity|]. split; [reflexivity|]. simpl. lia.
Qed.

Lemma refresh_event_spec_witness :
  (1 <= 3)%nat /\ 0 < 4 /\
  refresh_event 3 (fun _ (u : unit) => u) tt 4 =
    ((fun _ (u : unit) => u) (refreshTarget 3 4) tt, u64 (4 + 1), refreshTarget 3 4) /\
  (refreshTarget 3 4 <= 3 - 1)%nat /\
  (forall i, (i <= 3 - 1)%nat -> ((i <= refreshTarget 3 4)%nat <-> (2 ^ Z.of_nat i | 4))) /\
  (forall i, (i < 3 - 1)%nat ->
     (refreshTarget 3 4 = i <-> (2 ^ Z.of_nat i | 4) /\ ~ (2 ^ Z.of_nat (S i) | 4))) /\
  refresh_event 3 (fun _ (u : unit) => u) tt initialRefreshCallCount =
    ((fun _ (u : unit) => u) 0%nat tt, 2, 0%nat).
Proof.
  assert (Hn : (1 <= 3)%nat) by lia. assert (Hc : 0 < 4) by lia.
  split; [exact Hn|]. split; [exact Hc|].
  exact (refresh_event_spec 3 (fun _ (u : unit) => u) tt 4 Hn Hc).
Defined.

(** C2's cadence fails: from the initial count 1, the first four firings
    sweep levels 0, 1, 0, 2, so level 0 is not swept at every firing and
    level 1 is swept once in four firings. *)
Lemma refresh_cadence_cex :
  sweptLevels 3 4 initialRefreshCallCount = [0; 1; 0; 2]%nat /\
  ~ Forall (fun l => l = 0%nat) (sweptLevels 3 4 initialRefreshCallCount).
Proof.
  assert (E : sweptLevels 3 4 initialRefreshCallCount = [0; 1; 0; 2]%nat)
    by (vm_compute; reflexivity).
  split; [exact E|]. rewrite E. intros H.
  apply Forall_cons in H as [_ H]. apply Forall_cons in H as [H _]. discriminate.
Qed.


Lemma registerRefresh_levels_witness :
  (1 <= length (bloomFilters refreshDemo0))%nat /\
  (length (bloomFilters refreshDemo0) <= 32)%nat /\
  length (bloomFilters (registerRefresh cfgDemo rberDemo refreshDemo0 2 0 3)) =
    length (bloomFilters refreshDemo0) /\
  forall L, (L < length (bloomFilters refreshDemo0))%nat ->
    insertedAt (bloomFilters (registerRefresh cfgDemo rberDemo refreshDemo0 2 0 3)) L =
    if (L =? length (bloomFilters refreshDemo0) - 1)%nat
       || rberDemo (probePeriod cfgDemo (2 ^ Z.of_nat L)) 0 (3 mod 64)%nat
    then cons (refreshKey 2 (3 mod 64)%nat) <$> insertedAt (bloomFilters refreshDemo0) L
    else insertedAt (bloomFilters refreshDemo0) L.
Proof.
  assert (H1 : (1 <= length (bloomFilters refreshDemo0))%nat) by (simpl; lia).
  assert (H2 : (length (bloomFilters refreshDemo0) <= 32)%nat) by (simpl; lia).
  split; [exact H1|]. split; [exact H2|].
  exact (registerRefresh_levels cfgDemo rberDemo refreshDemo0 2 0 3 H1 H2).
Defined.

(** C1 with the exponent of the spec fails: with three levels and a base
    period of one second, the RBER at [base * 2^1] exceeds the threshold,
    yet level [1 - 1 = 0] does not receive the key. *)
Lemma registerRefresh_period_cex :
  rberDemo (probePeriod cfgDemo (2 ^ 1)) 0 (3 mod 64)%nat = true /\
  insertedAt (bloomFilters (registerRefresh cfgDemo rberDemo refreshDemo0 2 0 3)) 0 = Some [].
Proof. split; vm_compute; reflexivity. Qed.

Lemma demoStateErased_reachable : reachable cfgDemo extDemo demoStateErased 0.
Proof.
  change 0%nat with
    (0 + retiredBy cfgDemo demoState0 (reqBlockIndex (mkPALRequest 0 0 [])))%nat.
  apply reach_step with demoState0; [exact demoState0_reachable|].
  eapply (step_eraseInternal _ _ _ _ 0). vm_compute. reflexivity.
Qed.

Lemma getStatus_fast_path_witness :
  (forall l, is_Some (table demoStateMapped !! l) -> (l < 6)%nat) /\ (6 <= 6)%nat /\
  getStatus 6 demoStateMapped 0 6 =
    (nFreeBlocks demoStateMapped,
     length (filter (fun l => is_Some (table demoStateMapped !! l)) (seq 0 6))).
Proof.
  assert (Hk : forall l, is_Some (table demoStateMapped !! l) -> (l < 6)%nat).
  { intros l [x Hx]. unfold demoStateMapped in Hx. simpl in Hx.
    apply lookup_singleton_Some in Hx as [<- _]. lia. }
  split; [exact Hk|]. split; [lia|].
  exact (getStatus_fast_path 6 demoStateMapped 6 Hk ltac:(lia)).
Defined.

Lemma refreshKey_injective_witness :
  Z.of_nat 7 < 2 ^ 32 /\ Z.of_nat 3 < 2 ^ 32 /\
  (refreshKey 7 3 = refreshKey 7 3 -> 7%nat = 7%nat /\ 3%nat = 3%nat).
Proof.
  assert (H7 : Z.of_nat 7 < 2 ^ 32) by (vm_compute; reflexivity).
  assert (H3 : Z.of_nat 3 < 2 ^ 32) by (vm_compute; reflexivity).
  split; [exact H7|]. split; [exact H3|].
  exact (refreshKey_injective 7 7 3 3 H7 H7 H3 H3).
Defined.

Lemma getFreeBlock_selects_witness :
  getFreeBlock cfgDemo demoState0 0 =
    Ok (mkFTL [mkBlock 2 0 []; mkBlock 3 0 []] 2
              (<[1%nat := mkBlock 1 0 []]> (blocks demoState0)) ∅, 1%nat) /\
  exists i blk, freeBlocks demoState0 !! i = Some blk /\ blockIndex blk = 1%nat /\
    freeBlocks (mkFTL [mkBlock 2 0 []; mkBlock 3 0 []] 2
                  (<[1%nat := mkBlock 1 0 []]> (blocks demoState0)) ∅) =
      delete i (freeBlocks demoState0) /\
    blocks (mkFTL [mkBlock 2 0 []; mkBlock 3 0 []] 2
               (<[1%nat := mkBlock 1 0 []]> (blocks demoState0)) ∅) =
      <[1%nat := blk]> (blocks demoState0) /\
    nFreeBlocks (mkFTL [mkBlock 2 0 []; mkBlock 3 0 []] 2
                   (<[1%nat := mkBlock 1 0 []]> (blocks demoState0)) ∅) =
      (nFreeBlocks demoState0 - 1)%nat /\
    (((1 mod pageCountToMaxPerf cfgDemo)%nat = 0%nat /\
      forall j bj, (j < i)%nat -> freeBlocks demoState0 !! j = Some bj ->
        (blockIndex bj mod pageCountToMaxPerf cfgDemo)%nat <> 0%nat) \/
     (i = 0%nat /\ forall bj, bj ∈ freeBlocks demoState0 ->
        (blockIndex bj mod pageCountToMaxPerf cfgDemo)%nat <> 0%nat)).
Proof.
  assert (H : getFreeBlock cfgDemo demoState0 0 =
    Ok (mkFTL [mkBlock 2 0 []; mkBlock 3 0 []] 2
              (<[1%nat := mkBlock 1 0 []]> (blocks demoState0)) ∅, 1%nat))
    by (vm_compute; reflexivity).
  split; [exact H|].
  exact (getFreeBlock_selects cfgDemo demoState0 0 _ 1 H).
Defined.

Lemma eraseInternal_placement_witness :
  blocks demoState0 !! reqBlockIndex (mkPALRequest 0 0 []) = Some (mkBlock 0 0 []) /\
  (S (eraseCount (mkBlock 0 0 [])) < badBlockThreshold cfgDemo)%nat /\
  eraseInternal cfgDemo extDemo demoState0 (mkPALRequest 0 0 []) 0 =
    Ok (demoStateErased, 107) /\
  exists pos, freeBlocks demoStateErased =
      emplaceAt (freeBlocks demoState0) pos (blockErase (mkBlock 0 0 [])) /\
    (forall b, b ∈ take pos (freeBlocks demoState0) ->
       (eraseCount b <= S (eraseCount (mkBlock 0 0 [])))%nat) /\
    (forall b, b ∈ drop pos (freeBlocks demoState0) ->
       (S (eraseCount (mkBlock 0 0 [])) < eraseCount b)%nat).
Proof.
  assert (Hb : blocks demoState0 !! reqBlockIndex (mkPALRequest 0 0 []) =
               Some (mkBlock 0 0 [])) by reflexivity.
  assert (Ht : (S (eraseCount (mkBlock 0 0 [])) < badBlockThreshold cfgDemo)%nat)
    by (simpl; lia).
  assert (He : eraseInternal cfgDemo extDemo demoState0 (mkPALRequest 0 0 []) 0 =
    Ok (demoStateErased, 107)) by (vm_compute; reflexivity).
  split; [exact Hb|]. split; [exact Ht|]. split; [exact He|].
  exact (eraseInternal_placement cfgDemo extDemo demoState0 0 _ 0 _ _ _
           demoState0_reachable Hb Ht He).
Defined.

Lemma trim_pool_witness :
  trim cfgDemo extDemo demoStateMapped (mkRequest 5 [true]) 0 =
    Ok (mkFTL [mkBlock 1 0 []; mkBlock 2 0 []; mkBlock 3 0 []] 3
              {[0%nat := mkBlock 0 0 []]} ∅, 15) /\
  let s' := mkFTL [mkBlock 1 0 []; mkBlock 2 0 []; mkBlock 3 0 []] 3
                  {[0%nat := mkBlock 0 0 []]} ∅ in
  freeBlocks s' = freeBlocks demoStateMapped /\
  nFreeBlocks s' = nFreeBlocks demoStateMapped /\
  (forall b, is_Some (blocks s' !! b) <-> is_Some (blocks demoStateMapped !! b)) /\
  table s' = delete 5%nat (table demoStateMapped).
Proof.
  assert (H : trim cfgDemo extDemo demoStateMapped (mkRequest 5 [true]) 0 =
    Ok (mkFTL [mkBlock 1 0 []; mkBlock 2 0 []; mkBlock 3 0 []] 3
              {[0%nat := mkBlock 0 0 []]} ∅, 15)) by (vm_compute; reflexivity).
  split; [exact H|].
  exact (trim_pool cfgDemo extDemo demoStateMapped _ (mkRequest 5 [true]) 0 15 H).
Defined.

Lemma format_walk_witness :
  formatEntries cfgDemo (mkLPNRange 0 10) (map_to_list (table demoStateMapped))
    (blocks demoStateMapped) (table demoStateMapped) [] =
    Ok ({[0%nat := mkBlock 0 0 []]}, ∅, [0%nat]) /\
  ((forall l, (∅ : gmap nat (list (nat * nat))) !! l =
      if inLPNRange (mkLPNRange 0 10) l then None else table demoStateMapped !! l) /\
   (forall b, is_Some (({[0%nat := mkBlock 0 0 []]} : gmap nat Block) !! b) <->
              is_Some (blocks demoStateMapped !! b)) /\
   (forall b, b ∈ [0%nat] -> is_Some (blocks demoStateMapped !! b))) /\
  formatEntries cfgDemo (mkLPNRange 5 (2 ^ 64 - 1)) (map_to_list (table demoStateMapped))
    (blocks demoStateMapped) (table demoStateMapped) [] =
    Ok (blocks demoStateMapped, table demoStateMapped, []) /\
  ((forall l, table demoStateMapped !! l =
      if inLPNRange (mkLPNRange 5 (2 ^ 64 - 1)) l then None else table demoStateMapped !! l) /\
   (forall b, is_Some (blocks demoStateMapped !! b) <-> is_Some (blocks demoStateMapped !! b)) /\
   (forall b, b ∈ ([] : list nat) -> is_Some (blocks demoStateMapped !! b))).
Proof.
  assert (H1 : formatEntries cfgDemo (mkLPNRange 0 10) (map_to_list (table demoStateMapped))
                 (blocks demoStateMapped) (table demoStateMapped) [] =
               Ok ({[0%nat := mkBlock 0 0 []]}, ∅, [0%nat])) by (vm_compute; reflexivity).
  assert (H2 : formatEntries cfgDemo (mkLPNRange 5 (2 ^ 64 - 1))
                 (map_to_list (table demoStateMapped))
                 (blocks demoStateMapped) (table demoStateMapped) [] =
               Ok (blocks demoStateMapped, table demoStateMapped, [])) by (vm_compute; reflexivity).
  split; [exact H1|]. split; [exact (format_walk cfgDemo demoStateMapped _ _ _ _ H1)|].
  split; [exact H2|]. exact (format_walk cfgDemo demoStateMapped _ _ _ _ H2).
Defined.

Lemma readInternal_panics_iff_witness :
  table demoStateMapped !! lpn (mkRequest 5 [true]) = Some [(0, 0)%nat] /\
  (bitsetSize cfgDemo <= length [(0, 0)%nat])%nat /\
  (readInternal cfgDemo extDemo demoStateMapped (mkRequest 5 [true]) 0 =
     Panic "Block is not in use" <->
   exists j b p, (j < bitsetSize cfgDemo)%nat /\
     (nth j (ioFlag (mkRequest 5 [true])) false || negb (bRandomTweak cfgDemo)) = true /\
     [(0, 0)%nat] !! j = Some (b, p) /\
     (b < totalPhysicalBlocks cfgDemo)%nat /\ (p < pagesInBlock cfgDemo)%nat /\
     blocks demoStateMapped !! b = None).
Proof.
  assert (Hm : table demoStateMapped !! lpn (mkRequest 5 [true]) = Some [(0, 0)%nat])
    by (vm_compute; reflexivity).
  assert (Hl : (bitsetSize cfgDemo <= length [(0, 0)%nat])%nat) by (vm_compute; lia).
  split; [exact Hm|]. split; [exact Hl|].
  exact (readInternal_panics_iff cfgDemo extDemo demoStateMapped _ 0 _ Hm Hl).
Defined.

Lemma readInternal_skips_sentinel_witness :
  table demoStateSentinel !! lpn (mkRequest 5 [false; true]) = Some [(0, 0); (4, 2)]%nat /\
  (bitsetSize cfgTweak <= length [(0, 0); (4, 2)]%nat)%nat /\
  readInternal cfgTweak extDemo demoStateSentinel (mkRequest 5 [false; true]) 0 =
    Ok (demoStateSentinel, u64 (0 + cpu extDemo READ_INTERNAL)).
Proof.
  assert (Hm : table demoStateSentinel !! lpn (mkRequest 5 [false; true]) =
               Some [(0, 0); (4, 2)]%nat) by (vm_compute; reflexivity).
  assert (Hl : (bitsetSize cfgTweak <= length [(0, 0); (4, 2)]%nat)%nat) by (vm_compute; lia).
  assert (Hs : forall j b p, (j < bitsetSize cfgTweak)%nat ->
     (nth j (ioFlag (mkRequest 5 [false; true])) false || negb (bRandomTweak cfgTweak)) = true ->
     [(0, 0); (4, 2)]%nat !! j = Some (b, p) ->
     ~ ((b < totalPhysicalBlocks cfgTweak)%nat /\ (p < pagesInBlock cfgTweak)%nat)).
  { intros j b p Hj Hsel Hjp. vm_compute in Hj.
    destruct j as [|[|j]]; [vm_compute in Hsel; discriminate| |lia].
    vm_compute in Hjp. injection Hjp as <- <-. vm_compute. lia. }
  split; [exact Hm|]. split; [exact Hl|].
  exact (readInternal_skips_sentinel cfgTweak extDemo demoStateSentinel _ 0 _ Hm Hl Hs).
Defined.

Lemma lastFreeBlock_round_robin_witness :
  (0 < pageCountToMaxPerf cfgDemo)%nat /\
  let r := fold_left (fun st iom => advanceLastFreeBlock cfgDemo st.1 st.2 iom)
             [[true]; [true]; [false]] (0%nat, [true]) in
  (r.1 < pageCountToMaxPerf cfgDemo)%nat /\
  (bRandomTweak cfgDemo = false ->
   r.1 = ((0 + length [[true]; [true]; [false]]) mod pageCountToMaxPerf cfgDemo)%nat).
Proof.
  assert (H : (0 < pageCountToMaxPerf cfgDemo)%nat) by (vm_compute; lia).
  split; [exact H|].
  exact (lastFreeBlock_round_robin cfgDemo 0 [true] [[true]; [true]; [false]] H).
Defined.

Lemma wearLeveling_counts_all_witness :
  reachable cfgDemo extDemo demoStateErased 0 /\
  wearLevelingSums demoStateErased = (1, 1) /\
  (let all := map snd (map_to_list (blocks demoStateErased)) ++ freeBlocks demoStateErased in
   wearLevelingSums demoStateErased =
   (u64 (Z.of_nat (sum_list_with eraseCount all)),
    u64 (Z.of_nat (sum_list_with (fun b => eraseCount b * eraseCount b)%nat all)))).
Proof.
  split; [exact demoStateErased_reachable|]. split; [vm_compute; reflexivity|].
  exact (wearLeveling_counts_all cfgDemo extDemo demoStateErased 0 demoStateErased_reachable).
Defined.

